(** * KJV Bible app: the corpus schema, the query hook and the page state

    A shallow embedding of
    - the Supabase schema script (tables, the tsvector trigger and the
      [search_verses] function),
    - the React hook [useBibleApi] ([fetchChapter], [searchVerses]),
    - the page component [HomePage] (favorites, topics, topic search),
    followed by the properties of the specification that concern them.

    PostgreSQL's text-search built-ins, its text collation and its [REAL]
    ordering are not part of the repository: they are the fields of the
    class [Pg.Engine]. *)

From Stdlib Require Import ZArith NArith Ascii String.
From Stdlib Require Import DecimalString DecimalFacts DecimalZ.
From stdpp Require Import base numbers list sorting.

Local Open Scope Z_scope.

(** ** JavaScript strings *)

Module Js.

(** A JavaScript string is a sequence of UTF-16 code units. *)
Definition jsstring := list N.

(** The code units of an ASCII literal. *)
Definition lit (s : string) : jsstring :=
  N_of_ascii <$> list_ascii_of_string s.

(** [Number.prototype.toString] on an integral number. *)
Definition Number_toString (z : Z) : jsstring :=
  lit (NilZero.string_of_int (Z.to_int z)).

(** ECMAScript [WhiteSpace] and [LineTerminator] code points, the ones
    [String.prototype.trim] strips. All of them lie in the basic plane, so
    the test is on single code units. *)
Definition isWhiteSpace (c : N) : bool :=
  match c with
  | 0x0009 | 0x000A | 0x000B | 0x000C | 0x000D | 0x0020 | 0x00A0
  | 0x1680 | 0x2028 | 0x2029 | 0x202F | 0x205F | 0x3000 | 0xFEFF => true
  | _ => (0x2000 <=? c)%N && (c <=? 0x200A)%N
  end%N.

Fixpoint trimStart (s : jsstring) : jsstring :=
  match s with
  | [] => []
  | c :: s' => if isWhiteSpace c then trimStart s' else s
  end.

Definition trimEnd (s : jsstring) : jsstring :=
  reverse (trimStart (reverse s)).

Definition trim (s : jsstring) : jsstring := trimEnd (trimStart s).

(** [ToBoolean] on a string: only the empty string is falsy. *)
Definition truthy (s : jsstring) : bool :=
  match s with [] => false | _ => true end.

(** A query is blank when it is empty or made of white space only. *)
Definition blank (s : jsstring) : Prop := Forall (λ c, isWhiteSpace c = true) s.

#[export] Instance blank_dec s : Decision (blank s).
Proof. unfold blank. apply _. Defined.

End Js.

(** ** Comparison functions and the orders they induce *)

Module Ord.

(** A three-way comparison that is a total preorder: what [ORDER BY]
    needs of the ordering of every sort key. *)
Class CmpOrder {A} (cmp : A → A → comparison) : Prop := {
  cmp_antisym a b : cmp b a = CompOpp (cmp a b);
  cmp_lt_trans a b c : cmp a b = Lt → cmp b c = Lt → cmp a c = Lt;
  cmp_eq_compat a b c : cmp a b = Eq → cmp a c = cmp b c
}.

Arguments cmp_antisym {A} cmp {_} a b.
Arguments cmp_lt_trans {A} cmp {_} a b c.
Arguments cmp_eq_compat {A} cmp {_} a b c.

Definition le {A} (cmp : A → A → comparison) : relation A :=
  λ a b, cmp a b ≠ Gt.

(** Sort key [f] compared with [cmp]. *)
Definition on {A B} (f : A → B) (cmp : B → B → comparison)
  : A → A → comparison := λ a b, cmp (f a) (f b).

(** [DESC]. *)
Definition desc {A} (cmp : A → A → comparison) : A → A → comparison :=
  λ a b, cmp b a.

(** [ORDER BY k1, k2]: the second key decides where the first ties. *)
Definition lex {A} (c1 c2 : A → A → comparison) : A → A → comparison :=
  λ a b, match c1 a b with Eq => c2 a b | c => c end.

(** Strings compared code unit by code unit. *)
Fixpoint list_cmp (a b : list N) : comparison :=
  match a, b with
  | [], [] => Eq
  | [], _ :: _ => Lt
  | _ :: _, [] => Gt
  | x :: a, y :: b => match (x ?= y)%N with Eq => list_cmp a b | c => c end
  end.

(** No sort key at all: every two rows tie. *)
Definition tie {A} : A → A → comparison := λ _ _, Eq.

(** An aggregate may be [NULL] ([None]); ascending order puts it last. *)
Definition nulls_last {A} (cmp : A → A → comparison)
  : option A → option A → comparison :=
  λ a b,
    match a, b with
    | Some x, Some y => cmp x y
    | Some _, None => Lt
    | None, Some _ => Gt
    | None, None => Eq
    end.

#[export] Instance le_dec {A} (cmp : A → A → comparison) a b :
  Decision (le cmp a b).
Proof. unfold le. apply _. Defined.

End Ord.

(** ** The database: schema script *)

Module Pg.
Import Js Ord.

Abbreviation TEXT := jsstring.
Abbreviation INTEGER := Z.

(** What the script takes from PostgreSQL: the text-search functions at
    configuration ['english'], [ILIKE], and the orderings of [TEXT] (the
    database collation) and of [REAL]. *)
Class Engine := {
  tsvector : Type;
  tsquery : Type;
  real : Type;
  to_tsvector : TEXT → tsvector;
  websearch_to_tsquery : TEXT → tsquery;
  ts_match : tsvector → tsquery → bool;
  ts_rank : tsvector → tsquery → real;
  ilike : TEXT → TEXT → bool;
  text_cmp : TEXT → TEXT → comparison;
  real_cmp : real → real → comparison;
  text_cmp_order :: CmpOrder text_cmp;
  real_cmp_order :: CmpOrder real_cmp
}.

(** [bible_books]. *)
Inductive Testament := Old_Testament | New_Testament | Apocrypha.

Record Book := {
  book_id : INTEGER;
  bk_book_name : TEXT;
  testament : Testament;
  seq_number : INTEGER;
  chapter_count : INTEGER
}.

(** [bible_books_and_verses]: the four columns the client selects. The
    columns [id] and [created_at] are read nowhere and left out. *)
Record Cols := mkCols {
  book_name : TEXT;
  book_chapter : INTEGER;
  verse_number : INTEGER;
  verse_text : TEXT
}.

Definition natural_key (c : Cols) : TEXT * INTEGER * INTEGER :=
  (book_name c, book_chapter c, verse_number c).

Inductive TextColumn := col_book_name | col_verse_text.
Inductive IntColumn := col_book_chapter | col_verse_number.
Inductive Column := TextCol (c : TextColumn) | IntCol (c : IntColumn).

Definition text_col (c : TextColumn) (r : Cols) : TEXT :=
  match c with col_book_name => book_name r | col_verse_text => verse_text r end.

Definition int_col (c : IntColumn) (r : Cols) : INTEGER :=
  match c with
  | col_book_chapter => book_chapter r
  | col_verse_number => verse_number r
  end.

(** A PostgREST read of [bible_books_and_verses]: [.eq], [.ilike],
    [.order] (ascending) and [.limit]. *)
Inductive Filter :=
  | eq_text (c : TextColumn) (v : TEXT)
  | eq_int (c : IntColumn) (v : INTEGER)
  | ilike_text (c : TextColumn) (pattern : TEXT).

Record Query := {
  filters : list Filter;
  order : list Column;
  limit : option nat
}.

(** The outcome of a statement: its rows, or the error it raises. *)
Inductive Result (A : Type) := Ok (a : A) | Raise (message : string).
Arguments Ok {A} a.
Arguments Raise {A} message.

(** [LIMIT count]: [NULL] is no limit, a negative count is refused. *)
Definition LIMIT {A} (count : option INTEGER) (l : list A) : Result (list A) :=
  match count with
  | None => Ok l
  | Some n =>
      if n <? 0 then Raise "LIMIT must not be negative"
      else Ok (take (Z.to_nat n) l)
  end.

(** The values of an [INTEGER] column: 32 bits, signed. *)
Definition INTEGER_range (z : Z) : Prop := -2147483648 ≤ z ≤ 2147483647.

#[export] Instance INTEGER_range_dec z : Decision (INTEGER_range z).
Proof. unfold INTEGER_range. apply _. Defined.

(** The value of an [.eq] on an [INTEGER] column is read as an [INTEGER]
    before any row is looked at; the first value that is none is the one
    the statement fails on. *)
Fixpoint out_of_range (fs : list Filter) : option Z :=
  match fs with
  | [] => None
  | eq_int _ v :: fs =>
      if decide (INTEGER_range v) then out_of_range fs else Some v
  | _ :: fs => out_of_range fs
  end.

(** [value "v" is out of range for type integer], SQLSTATE 22003. *)
Definition out_of_range_message (v : Z) : string :=
  let quote := String "034"%char EmptyString in
  String.append "value "
    (String.append quote
       (String.append (NilZero.string_of_int (Z.to_int v))
          (String.append quote " is out of range for type integer"))).

(** [seq_number] of the book of that name, for the canonical order of the
    books; the schema has no foreign key, so the book may be missing. *)
Definition seq_number_of (books : list Book) (name : TEXT) : option INTEGER :=
  seq_number <$> (snd <$> list_find (λ b, bk_book_name b = name) books).

Section engine.
Context `{Engine}.

Record Row := mkRow {
  cols :> Cols;
  verse_text_tsv : option tsvector
}.

Definition Table := list Row.

(** [UNIQUE(book_name, book_chapter, verse_number)]. *)
Definition unique_key (t : Table) : Prop :=
  NoDup ((λ r : Row, natural_key r) <$> t).

#[export] Instance unique_key_dec t : Decision (unique_key t).
Proof. unfold unique_key. apply _. Defined.

(** The trigger function. *)
Definition update_verse_text_tsv (NEW : Row) : Row :=
  {| cols := NEW; verse_text_tsv := Some (to_tsvector (verse_text NEW)) |}.

(** Writes to [bible_books_and_verses]. An inserted or assigned row may
    carry any [verse_text_tsv] of the writer's choice. *)
Inductive Stmt :=
  | INSERT (rows : list Row)
  | UPDATE (set : Row → Row) (where_ : Row → bool)
  | DELETE (where_ : Row → bool).

(** [tsvector_update_trigger]: [BEFORE INSERT OR UPDATE ... FOR EACH ROW],
    so every row a statement writes is the trigger function's [NEW]. *)
Definition write (s : Stmt) (t : Table) : Table :=
  match s with
  | INSERT rows => t ++ (update_verse_text_tsv <$> rows)
  | UPDATE set where_ =>
      (λ r, if where_ r then update_verse_text_tsv (set r) else r) <$> t
  | DELETE where_ => filter (λ r, where_ r = false) t
  end.

(** A statement that would break the unique constraint fails as a whole
    and leaves the table as it was. The constraint is checked on the
    table the statement would leave. *)
Definition exec (t : Table) (s : Stmt) : Table :=
  let t' := write s t in
  if decide (unique_key t') then t' else t.

(** The table right after the script ran, and after later statements. *)
Definition created : Table := [].

Definition run (stmts : list Stmt) : Table := foldl exec created stmts.

(** Every stored verse has the index entry of its current text. *)
Definition index_consistent (t : Table) : Prop :=
  ∀ r : Row, r ∈ t → verse_text_tsv r = Some (to_tsvector (verse_text r)).

(** *** Reads through PostgREST *)

Definition col_cmp (c : Column) : Cols → Cols → comparison :=
  match c with
  | TextCol c => on (text_col c) text_cmp
  | IntCol c => on (int_col c) Z.compare
  end.

Fixpoint order_cmp (keys : list Column) : Cols → Cols → comparison :=
  match keys with
  | [] => tie
  | k :: keys => lex (col_cmp k) (order_cmp keys)
  end.

Definition passes (r : Cols) (f : Filter) : bool :=
  match f with
  | eq_text c v => bool_decide (text_col c r = v)
  | eq_int c v => bool_decide (int_col c r = v)
  | ilike_text c pattern => ilike (text_col c r) pattern
  end.

(** The rows that pass every filter of the query. *)
Definition passing (q : Query) (r : Cols) : Prop :=
  forallb (passes r) (filters q) = true.

#[export] Instance passing_dec q r : Decision (passing q r).
Proof. unfold passing. apply _. Defined.

(** Filter, then order, then limit, whatever the order of the builder
    calls. With no [.order] the rows tie and come in some order. *)
Definition select (t : Table) (q : Query) : list Cols :=
  let rows := filter (passing q) (cols <$> t) in
  let sorted := merge_sort (le (order_cmp (order q))) rows in
  match limit q with
  | Some n => take n sorted
  | None => sorted
  end.

(** What the database answers to a read: the selected rows, or the error
    of a filter value that is no [INTEGER]. *)
Definition read (t : Table) (q : Query) : Result (list Cols) :=
  match out_of_range (filters q) with
  | Some v => Raise (out_of_range_message v)
  | None => Ok (select t q)
  end.

(** *** [search_verses] *)

Record Hit := mkHit {
  hit_cols :> Cols;
  rank : real
}.

(** [ORDER BY rank DESC, v.book_name, v.book_chapter, v.verse_number]. *)
Definition search_order : Hit → Hit → comparison :=
  lex (desc (on rank real_cmp))
   (lex (on (λ h : Hit, book_name h) text_cmp)
    (lex (on (λ h : Hit, book_chapter h) Z.compare)
         (on (λ h : Hit, verse_number h) Z.compare))).

Definition hit (q : tsquery) (v : Row) : option Hit :=
  match verse_text_tsv v with
  | Some tsv => if ts_match tsv q then Some (mkHit v (ts_rank tsv q)) else None
  | None => None
  end.

(** [max_results] is [None] for SQL [NULL]. *)
Definition search_verses (t : Table) (search_query : TEXT)
    (max_results : option INTEGER) : Result (list Hit) :=
  let q := websearch_to_tsquery search_query in
  LIMIT max_results (merge_sort (le search_order) (omap (hit q) t)).

(** [max_results INT DEFAULT 100]. *)
Definition search_verses_default (t : Table) (search_query : TEXT)
  : Result (list Hit) := search_verses t search_query (Some 100).

(** The tie-break of the specification's wording: rank descending, then
    the canonical order of the books ([seq_number]), then chapter, then
    verse number. A book without a row in [bible_books] counts as 0. *)
Definition canonical_order (books : list Book) : Hit → Hit → comparison :=
  lex (desc (on rank real_cmp))
   (lex (on (λ h : Hit, default 0 (seq_number_of books (book_name h))) Z.compare)
    (lex (on (λ h : Hit, book_chapter h) Z.compare)
         (on (λ h : Hit, verse_number h) Z.compare))).

(** *** The helper views *)

(** [GROUP BY key]: one group for every key among the rows, with the rows
    of that key. *)
Definition group_by {K} `{EqDecision K} (key : Cols → K) (rows : list Cols)
  : list (K * list Cols) :=
  (λ k, (k, filter (λ r, key r = k) rows)) <$> remove_dups (key <$> rows).

(** [MIN] and [MAX] of a column over a group; [None] is [NULL]. *)
Definition MIN (zs : list INTEGER) : option INTEGER :=
  match zs with
  | [] => None
  | z :: zs => Some (foldr Z.min z zs)
  end.

Definition MAX (zs : list INTEGER) : option INTEGER :=
  match zs with
  | [] => None
  | z :: zs => Some (foldr Z.max z zs)
  end.

(** [COUNT( * )]. *)
Definition COUNT (rows : list Cols) : INTEGER := Z.of_nat (length rows).

(** The total of a column of a view. *)
Definition SUM (zs : list INTEGER) : INTEGER := foldr Z.add 0 zs.

Record BookVerseCount := {
  bvc_book_name : TEXT;
  bvc_total_verses : INTEGER;
  bvc_chapter_count : option INTEGER
}.

(** [book_verse_counts]: [GROUP BY book_name
    ORDER BY MIN(book_chapter), book_name]. *)
Definition book_verse_counts (t : Table) : list BookVerseCount :=
  let groups := group_by book_name (cols <$> t) in
  let ordered :=
    merge_sort
      (le (lex (on (λ g : TEXT * list Cols, MIN (book_chapter <$> g.2))
                   (nulls_last Z.compare))
               (on fst text_cmp)))
      groups in
  (λ g : TEXT * list Cols,
     {| bvc_book_name := g.1;
        bvc_total_verses := COUNT g.2;
        bvc_chapter_count := MAX (book_chapter <$> g.2) |}) <$> ordered.

Record ChapterVerseCount := {
  cvc_book_name : TEXT;
  cvc_book_chapter : INTEGER;
  cvc_verse_count : INTEGER
}.

(** [chapter_verse_counts]: [GROUP BY book_name, book_chapter
    ORDER BY book_name, book_chapter]. *)
Definition chapter_verse_counts (t : Table) : list ChapterVerseCount :=
  let groups :=
    group_by (λ r, (book_name r, book_chapter r)) (cols <$> t) in
  let ordered :=
    merge_sort
      (le (lex (on (λ g : TEXT * INTEGER * list Cols, g.1.1) text_cmp)
               (on (λ g : TEXT * INTEGER * list Cols, g.1.2) Z.compare)))
      groups in
  (λ g : TEXT * INTEGER * list Cols,
     {| cvc_book_name := g.1.1;
        cvc_book_chapter := g.1.2;
        cvc_verse_count := COUNT g.2 |}) <$> ordered.

End engine.

Arguments Row {_}.
Arguments Table {_}.
Arguments Hit {_}.
Arguments Stmt {_}.

End Pg.

(** ** The Supabase client, as the application sees it *)

Module Supabase.
Import Js.

(** A thrown value: whether it is an [Error] instance, and its message. *)
Record Thrown := {
  instanceofError : bool;
  message : jsstring
}.

(** The [{ data, error }] object a query resolves to. *)
Record Response := {
  data : option (list Pg.Cols);
  error : option Thrown
}.

(** Awaiting a query yields a response, or throws. *)
Inductive Awaited := resolves (r : Response) | throws (e : Thrown).

Definition Client := Pg.Query → Awaited.

(** The store could not be queried: the await throws, or the response
    carries an error. *)
Definition faulty (a : Awaited) : Prop :=
  match a with
  | throws _ => True
  | resolves r => is_Some (error r)
  end.

#[export] Instance faulty_dec a : Decision (faulty a).
Proof. destruct a; simpl; apply _. Defined.

(** A client in front of a reachable database holding table [t]. An error
    of the database comes back in the response; it is a plain object, no
    [Error] instance. *)
Definition connected `{Pg.Engine} (t : Pg.Table) : Client :=
  λ q,
    match Pg.read t q with
    | Pg.Ok rows => resolves {| data := Some rows; error := None |}
    | Pg.Raise msg =>
        resolves {| data := None;
                    error := Some {| instanceofError := false;
                                     message := lit msg |} |}
    end.

(** A client whose every query comes back with error [e]. *)
Definition unreachable (e : Thrown) : Client :=
  λ _, resolves {| data := None; error := Some e |}.

(** How an [async] function settles. *)
Inductive Promise (A : Type) := fulfilled (a : A) | rejected (reason : Thrown).
Arguments fulfilled {A} a.
Arguments rejected {A} reason.

(** *** Bodies of [async] functions

    A body runs on the state [C] of its component and on the list of the
    queries sent to the store so far; it completes with a value or throws,
    and what it did to the state before throwing stays done. *)

Record World (C : Type) := mkWorld {
  component : C;
  sent : list Pg.Query
}.
Arguments mkWorld {C} component sent.
Arguments component {C} w.
Arguments sent {C} w.

Inductive Completion (A : Type) := Normal (a : A) | Throw (e : Thrown).
Arguments Normal {A} a.
Arguments Throw {A} e.

Definition Async (C A : Type) : Type := World C → World C * Completion A.

#[export] Instance Async_ret {C} : MRet (Async C) :=
  λ A a w, (w, Normal a).

#[export] Instance Async_bind {C} : MBind (Async C) :=
  λ A B k m w,
    match m w with
    | (w', Normal a) => k a w'
    | (w', Throw e) => (w', Throw e)
    end.

Definition throw {C A} (e : Thrown) : Async C A := λ w, (w, Throw e).

(** [try { block } catch (err) { handler }]. *)
Definition tryCatch {C A} (block : Async C A) (handler : Thrown → Async C A)
  : Async C A :=
  λ w,
    match block w with
    | (w', Normal a) => (w', Normal a)
    | (w', Throw err) => handler err w'
    end.

(** [try { block } finally { finalizer }]. *)
Definition tryFinally {C A} (block : Async C A) (finalizer : Async C unit)
  : Async C A :=
  λ w,
    match block w with
    | (w', c) =>
        match finalizer w' with
        | (w'', Normal _) => (w'', c)
        | (w'', Throw e) => (w'', Throw e)
        end
    end.

(** A state setter of the component. *)
Definition set {C} (f : C → C) : Async C unit :=
  λ w, (mkWorld (f (component w)) (sent w), Normal ()).

(** [await supabase.from("bible_books_and_verses").select(...)...]: the
    query goes out, and the answer comes back or the await throws. *)
Definition await {C} (supabase : Client) (q : Pg.Query) : Async C Response :=
  λ w,
    let w := mkWorld (component w) (sent w ++ [q]) in
    match supabase q with
    | resolves r => (w, Normal r)
    | throws e => (w, Throw e)
    end.

(** The promise of a call: fulfilled when the body completes, rejected
    when it throws. *)
Definition settle {A} (c : Completion A) : Promise A :=
  match c with
  | Normal a => fulfilled a
  | Throw e => rejected e
  end.

End Supabase.

(** ** The hook [useBibleApi] *)

Module useBibleApi.
Import Js Supabase.

(** Chapter and verse are JavaScript numbers; the store only ever hands
    out integers, and they are modelled as such. *)
Record Verse := mkVerse {
  book : jsstring;
  chapter : Z;
  verse : Z;
  text : jsstring
}.

#[export] Instance Verse_eq_dec : EqDecision Verse.
Proof. solve_decision. Defined.

Record State := mkState {
  verses : list Verse;
  loading : bool;
  error : option jsstring
}.

Definition initial : State :=
  {| verses := []; loading := false; error := None |}.

Definition setVerses (vs : list Verse) (st : State) : State :=
  {| verses := vs; loading := loading st; error := error st |}.

Definition setLoading (b : bool) (st : State) : State :=
  {| verses := verses st; loading := b; error := error st |}.

Definition setError (e : option jsstring) (st : State) : State :=
  {| verses := verses st; loading := loading st; error := e |}.

(** One call of a hook function: the state it leaves, the queries it
    sent to the store, and how its promise settled. *)
Record Run := {
  state : State;
  issued : list Pg.Query;
  settled : Promise unit
}.

Definition call (body : Async State unit) (st : State) : Run :=
  let '(w, c) := body (mkWorld st []) in
  {| state := component w; issued := sent w; settled := settle c |}.

Definition transform (v : Pg.Cols) : Verse :=
  {| book := Pg.book_name v;
     chapter := Pg.book_chapter v;
     verse := Pg.verse_number v;
     text := Pg.verse_text v |}.

(** [data || []]. *)
Definition orEmpty (data : option (list Pg.Cols)) : list Pg.Cols :=
  default [] data.

(** [err instanceof Error ? err.message : fallback]. *)
Definition errorMessage (fallback : string) (err : Thrown) : jsstring :=
  if instanceofError err then message err else lit fallback.

(** The [try] block both functions share: await the query, throw the
    error the response reports, otherwise transform and store the rows. *)
Definition load (supabase : Client) (q : Pg.Query) : Async State unit :=
  r ← await supabase q;
  match Supabase.error r with
  | Some supabaseError => throw supabaseError
  | None => set (setVerses (transform <$> orEmpty (data r)))
  end.

Definition chapter_query (book : jsstring) (chapter : Z) : Pg.Query :=
  {| Pg.filters := [Pg.eq_text Pg.col_book_name book;
                    Pg.eq_int Pg.col_book_chapter chapter];
     Pg.order := [Pg.IntCol Pg.col_verse_number];
     Pg.limit := None |}.

(** What both functions do around that block: raise [loading], clear
    [error], run the block, record what it throws, lower [loading]. *)
Definition request (fallback : string) (supabase : Client) (q : Pg.Query)
  : Async State unit :=
  set (setLoading true);;
  set (setError None);;
  tryFinally
    (tryCatch
       (load supabase q)
       (λ err, set (setError (Some (errorMessage fallback err)))))
    (set (setLoading false)).

Definition fetchChapter_body (supabase : Client)
    (book : jsstring) (chapter : Z) : Async State unit :=
  request "Failed to fetch chapter" supabase (chapter_query book chapter).

Definition fetchChapter (supabase : Client) (st : State)
    (book : jsstring) (chapter : Z) : Run :=
  call (fetchChapter_body supabase book chapter) st.

Definition search_query (limit : nat) (order : list Pg.Column)
    (query : jsstring) : Pg.Query :=
  {| Pg.filters := [Pg.ilike_text Pg.col_verse_text (lit "%" ++ query ++ lit "%")];
     Pg.order := order;
     Pg.limit := Some limit |}.

Definition searchVerses_query : jsstring → Pg.Query :=
  search_query 100
    [Pg.TextCol Pg.col_book_name; Pg.IntCol Pg.col_book_chapter;
     Pg.IntCol Pg.col_verse_number].

(** The order that query asks for, on the transformed verses. *)
Definition verse_order `{Pg.Engine} : Verse → Verse → comparison :=
  Ord.lex (Ord.on book Pg.text_cmp)
    (Ord.lex (Ord.on chapter Z.compare) (Ord.on verse Z.compare)).

Definition searchVerses_body (supabase : Client) (query : jsstring)
  : Async State unit :=
  if negb (truthy (trim query)) then
    set (setVerses [])
  else
    request "Failed to search verses" supabase (searchVerses_query query).

Definition searchVerses (supabase : Client) (st : State)
    (query : jsstring) : Run :=
  call (searchVerses_body supabase query) st.

End useBibleApi.

(** ** The page component [HomePage] *)

Module HomePage.
Import Js Supabase.
Import useBibleApi (Verse, mkVerse, book, chapter, verse, text, transform, orEmpty, search_query).

Record Topic := mkTopic {
  id : jsstring;
  title : jsstring;
  description : jsstring;
  verses : list Verse;
  createdAt : Z
}.

(** [Omit<Topic, "id" | "createdAt">]. *)
Record TopicData := {
  data_title : jsstring;
  data_description : jsstring;
  data_verses : list Verse
}.

(** A [Set<string>] is its elements in insertion order, each once. *)
Abbreviation StringSet := (list jsstring).

Definition has (s : StringSet) (k : jsstring) : bool := bool_decide (k ∈ s).

Definition add (s : StringSet) (k : jsstring) : StringSet :=
  if has s k then s else s ++ [k].

Definition delete (s : StringSet) (k : jsstring) : StringSet :=
  filter (λ x, x ≠ k) s.

(** [new Set(favorites)] and [[...favoriteVerses]] copy; the handlers
    below build new values and never change the old ones. *)

(** The collections the page keeps. *)
Record Page := mkPage {
  favorites : StringSet;
  favoriteVerses : list Verse;
  topics : list Topic
}.

Definition mounted : Page :=
  {| favorites := []; favoriteVerses := []; topics := [] |}.

Definition setTopics (ts : list Topic) (st : Page) : Page :=
  {| favorites := favorites st; favoriteVerses := favoriteVerses st; topics := ts |}.

Definition setFavoriteVerses (vs : list Verse) (st : Page) : Page :=
  {| favorites := favorites st; favoriteVerses := vs; topics := topics st |}.

(** The template literal [`${v.book}_${v.chapter}_${v.verse}`]. *)
Definition verseKey (v : Verse) : jsstring :=
  book v ++ lit "_" ++ Number_toString (chapter v)
         ++ lit "_" ++ Number_toString (verse v).

(** [Array.prototype.find], [findIndex] (-1 when nothing matches) and
    [splice(index, 1)]. *)
Fixpoint find {A} (p : A → bool) (l : list A) : option A :=
  match l with
  | [] => None
  | x :: l => if p x then Some x else find p l
  end.

Fixpoint findIndex {A} (p : A → bool) (l : list A) : Z :=
  match l with
  | [] => -1
  | x :: l =>
      if p x then 0
      else let i := findIndex p l in if i =? -1 then -1 else i + 1
  end.

Fixpoint splice1 {A} (index : nat) (l : list A) : list A :=
  match l, index with
  | [], _ => []
  | _ :: l, O => l
  | x :: l, S index => x :: splice1 index l
  end.

Definition hasKey (key : jsstring) (v : Verse) : bool :=
  bool_decide (verseKey v = key).

(** What [findIndex] followed by [splice] amounts to: the array without
    the first entry of that key. *)
Fixpoint removeFirst (key : jsstring) (vs : list Verse) : list Verse :=
  match vs with
  | [] => []
  | v :: vs => if hasKey key v then vs else v :: removeFirst key vs
  end.

Definition findVerseByKey (verses favoriteVerses : list Verse)
    (key : jsstring) : option Verse :=
  match find (hasKey key) verses with
  | Some foundVerse => Some foundVerse
  | None =>
      match find (hasKey key) favoriteVerses with
      | Some existingFavorite => Some existingFavorite
      | None => None
      end
  end.

(** The effect on [[favorites]]: rebuild the array from the set, looking
    each key up in the displayed [verses] first. *)
Definition favoritesEffect (verses : list Verse) (st : Page) : Page :=
  let favoritesArray :=
    omap (findVerseByKey verses (favoriteVerses st)) (favorites st) in
  setFavoriteVerses favoritesArray st.

Definition handleToggleFavorite (st : Page) (verse : Verse) : Page :=
  let key := verseKey verse in
  let newFavorites := favorites st in
  let newFavoriteVerses := favoriteVerses st in
  if has newFavorites key then
    let newFavorites := delete newFavorites key in
    let index := findIndex (hasKey key) newFavoriteVerses in
    let newFavoriteVerses :=
      if index >? -1 then splice1 (Z.to_nat index) newFavoriteVerses
      else newFavoriteVerses in
    {| favorites := newFavorites; favoriteVerses := newFavoriteVerses;
       topics := topics st |}
  else
    {| favorites := add newFavorites key;
       favoriteVerses := newFavoriteVerses ++ [verse];
       topics := topics st |}.

(** A click: the handler, the render it causes, and the effect of that
    render, which sees the [verses] then on display. The next click runs
    the handler of the new render, on the state this one left. *)
Definition toggle (verses : list Verse) (st : Page) (verse : Verse) : Page :=
  favoritesEffect verses (handleToggleFavorite st verse).

(** [now] is [Date.now()]. *)
Definition handleCreateTopic (now : Z) (st : Page) (topicData : TopicData)
  : Page :=
  let newTopic :=
    {| id := Number_toString now;
       title := data_title topicData;
       description := data_description topicData;
       verses := data_verses topicData;
       createdAt := now |} in
  setTopics (topics st ++ [newTopic]) st.

Definition handleDeleteTopic (st : Page) (topicId : jsstring) : Page :=
  setTopics (filter (λ topic, id topic ≠ topicId) (topics st)) st.

Definition sameVerse (verse v : Verse) : bool :=
  bool_decide (book v = book verse)
  && bool_decide (chapter v = chapter verse)
  && bool_decide (useBibleApi.verse v = useBibleApi.verse verse).

Definition withVerses (topic : Topic) (vs : list Verse) : Topic :=
  {| id := id topic; title := title topic; description := description topic;
     verses := vs; createdAt := createdAt topic |}.

(** The function [handleAddVerseToTopic] maps over the topics. *)
Definition addVerseTo (topicId : jsstring) (verse : Verse) (topic : Topic)
  : Topic :=
  if bool_decide (id topic = topicId) then
    let verseExists := existsb (sameVerse verse) (verses topic) in
    if negb verseExists then withVerses topic (verses topic ++ [verse])
    else topic
  else topic.

Definition handleAddVerseToTopic (st : Page) (topicId : jsstring)
    (verse : Verse) : Page :=
  setTopics (addVerseTo topicId verse <$> topics st) st.

(** The function [handleRemoveVerseFromTopic] maps over the topics. *)
Definition removeVerseFrom (topicId : jsstring) (verse : Verse) (topic : Topic)
  : Topic :=
  if bool_decide (id topic = topicId) then
    withVerses topic
      (filter (λ v, negb (sameVerse verse v) = true) (verses topic))
  else topic.

Definition handleRemoveVerseFromTopic (st : Page) (topicId : jsstring)
    (verse : Verse) : Page :=
  setTopics (removeVerseFrom topicId verse <$> topics st) st.

(** The handlers that change [topics]. *)
Inductive TopicEvent :=
  | CreateTopic (now : Z) (topicData : TopicData)
  | DeleteTopic (topicId : jsstring)
  | AddVerseToTopic (topicId : jsstring) (verse : Verse)
  | RemoveVerseFromTopic (topicId : jsstring) (verse : Verse).

Definition handle (st : Page) (e : TopicEvent) : Page :=
  match e with
  | CreateTopic now topicData => handleCreateTopic now st topicData
  | DeleteTopic topicId => handleDeleteTopic st topicId
  | AddVerseToTopic topicId verse => handleAddVerseToTopic st topicId verse
  | RemoveVerseFromTopic topicId verse =>
      handleRemoveVerseFromTopic st topicId verse
  end.

(** No two verses of one topic share (book, chapter, verse number). *)
Definition compositeKey (v : Verse) : jsstring * Z * Z :=
  (book v, chapter v, verse v).

Definition noDuplicateVerse (topic : Topic) : Prop :=
  NoDup (compositeKey <$> verses topic).

#[export] Instance noDuplicateVerse_dec topic : Decision (noDuplicateVerse topic).
Proof. unfold noDuplicateVerse. apply _. Defined.

(** A topic is created from verses without a duplicate, such as none. *)
Definition createsNoDuplicate (e : TopicEvent) : Prop :=
  match e with
  | CreateTopic _ topicData => NoDup (compositeKey <$> data_verses topicData)
  | _ => True
  end.

#[export] Instance createsNoDuplicate_dec e : Decision (createsNoDuplicate e).
Proof. destruct e; simpl; apply _. Defined.

(** The search behind the Topics tab; the [console.error] of its
    handler leaves no trace in the model. *)
Definition handleTopicsSearch_query : jsstring → Pg.Query := search_query 50 [].

Definition handleTopicsSearch_body (supabase : Client) (query : jsstring)
  : Async unit (list Verse) :=
  tryCatch
    (r ← await supabase (handleTopicsSearch_query query);
     match Supabase.error r with
     | Some error => throw error
     | None => mret (transform <$> orEmpty (data r))
     end)
    (λ error, mret []).

(** The promise it returns, and the queries it sent. *)
Definition handleTopicsSearch (supabase : Client) (query : jsstring)
  : Promise (list Verse) * list Pg.Query :=
  let '(w, c) := handleTopicsSearch_body supabase query (mkWorld () []) in
  (settle c, sent w).

(** The two favorites collections agree: per key, one array entry if the
    key is in the set and none otherwise. *)
Definition entries (key : jsstring) (vs : list Verse) : nat :=
  length (filter (λ v, verseKey v = key) vs).

Definition favoritesAgree (st : Page) : Prop :=
  ∀ key, entries key (favoriteVerses st) = if has (favorites st) key then 1%nat else 0%nat.

(** A session of the favorites: clicks on verses, each with the verses
    on display when its effect runs. *)
Definition click (st : Page) (c : list Verse * Verse) : Page :=
  toggle (fst c) st (snd c).

Definition clicks (cs : list (list Verse * Verse)) : Page :=
  foldl click mounted cs.

(** [handleRemoveFavorite] is the toggle. *)
Definition handleRemoveFavorite (st : Page) (verse : Verse) : Page :=
  handleToggleFavorite st verse.

(** The chapter fetch behind the verse expansion; like the topic search,
    its handler turns what is thrown into the empty array. *)
Definition handleFetchChapter_body (supabase : Client)
    (book : jsstring) (chapter : Z) : Async unit (list Verse) :=
  tryCatch
    (r ← await supabase (useBibleApi.chapter_query book chapter);
     match Supabase.error r with
     | Some error => throw error
     | None => mret (transform <$> orEmpty (data r))
     end)
    (λ error, mret []).

Definition handleFetchChapter (supabase : Client)
    (book : jsstring) (chapter : Z) : Promise (list Verse) * list Pg.Query :=
  let '(w, c) := handleFetchChapter_body supabase book chapter (mkWorld () []) in
  (settle c, sent w).

(** *** What the reader sees

    The selection of the header, the search mode, and the state of the
    hook. A handler calls a hook function without awaiting it; the call is
    taken as a whole, as for the hook itself. *)
Record View := mkView {
  selectedBook : jsstring;
  selectedChapter : Z;
  searchMode : bool;
  api : useBibleApi.State
}.

(** What a handler leaves: the view, and the queries it sent. *)
Record Handled := {
  view : View;
  requests : list Pg.Query
}.

(** The first render and its effect, [fetchChapter(selectedBook,
    selectedChapter)]. *)
Definition mount (supabase : Client) : Handled :=
  let r := useBibleApi.fetchChapter supabase useBibleApi.initial (lit "Genesis") 1 in
  {| view := {| selectedBook := lit "Genesis"; selectedChapter := 1;
                searchMode := false; api := useBibleApi.state r |};
     requests := useBibleApi.issued r |}.

Definition handleBookChange (supabase : Client) (v : View) (book : jsstring)
  : Handled :=
  let r := useBibleApi.fetchChapter supabase (api v) book 1 in
  {| view := {| selectedBook := book; selectedChapter := 1;
                searchMode := false; api := useBibleApi.state r |};
     requests := useBibleApi.issued r |}.

Definition handleChapterChange (supabase : Client) (v : View) (chapter : Z)
  : Handled :=
  let r := useBibleApi.fetchChapter supabase (api v) (selectedBook v) chapter in
  {| view := {| selectedBook := selectedBook v; selectedChapter := chapter;
                searchMode := false; api := useBibleApi.state r |};
     requests := useBibleApi.issued r |}.

Definition handleSearch (supabase : Client) (v : View) (query : jsstring)
  : Handled :=
  if truthy (trim query) then
    let r := useBibleApi.searchVerses supabase (api v) query in
    {| view := {| selectedBook := selectedBook v;
                  selectedChapter := selectedChapter v;
                  searchMode := true; api := useBibleApi.state r |};
       requests := useBibleApi.issued r |}
  else
    let r := useBibleApi.fetchChapter supabase (api v)
               (selectedBook v) (selectedChapter v) in
    {| view := {| selectedBook := selectedBook v;
                  selectedChapter := selectedChapter v;
                  searchMode := false; api := useBibleApi.state r |};
       requests := useBibleApi.issued r |}.

(** [chapter?: number]: [None] is [undefined]; [if (chapter)] holds for a
    number other than 0. *)
Definition handleBooksExplorerSelection (supabase : Client) (v : View)
    (book : jsstring) (chapter : option Z) : Handled :=
  match chapter with
  | Some chapter' =>
      if bool_decide (chapter' ≠ 0) then
        let r := useBibleApi.fetchChapter supabase (api v) book chapter' in
        {| view := {| selectedBook := book; selectedChapter := chapter';
                      searchMode := false; api := useBibleApi.state r |};
           requests := useBibleApi.issued r |}
      else
        let r := useBibleApi.fetchChapter supabase (api v) book 1 in
        {| view := {| selectedBook := book; selectedChapter := 1;
                      searchMode := false; api := useBibleApi.state r |};
           requests := useBibleApi.issued r |}
  | None =>
      let r := useBibleApi.fetchChapter supabase (api v) book 1 in
      {| view := {| selectedBook := book; selectedChapter := 1;
                    searchMode := false; api := useBibleApi.state r |};
         requests := useBibleApi.issued r |}
  end.

(** The reader's moves, and a session of them from the first render. *)
Inductive Move :=
  | BookChange (book : jsstring)
  | ChapterChange (chapter : Z)
  | Search (query : jsstring)
  | BooksExplorerSelection (book : jsstring) (chapter : option Z).

Definition move (supabase : Client) (h : Handled) (m : Move) : Handled :=
  match m with
  | BookChange book => handleBookChange supabase (view h) book
  | ChapterChange chapter => handleChapterChange supabase (view h) chapter
  | Search query => handleSearch supabase (view h) query
  | BooksExplorerSelection book chapter =>
      handleBooksExplorerSelection supabase (view h) book chapter
  end.

Definition session (supabase : Client) (ms : list Move) : Handled :=
  foldl (move supabase) (mount supabase) ms.

End HomePage.

(** * Properties *)

(** ** [String.prototype.trim] *)

Module JsFacts.
Import Js.

Lemma trimStart_blank s : blank s → trimStart s = [].
Proof.
  induction 1 as [|c s Hc _ IH]; simpl; [done|]. by rewrite Hc.
Qed.

Lemma trimStart_nil_blank s : trimStart s = [] → blank s.
Proof.
  unfold blank. induction s as [|c s IH]; simpl; [constructor|].
  destruct (isWhiteSpace c) eqn:Hc; [|done].
  intros Hs. constructor; [done | by apply IH].
Qed.

(** What [trimStart] leaves does not start with white space. *)
Lemma trimStart_head s c t : trimStart s = c :: t → isWhiteSpace c = false.
Proof.
  induction s as [|d s IH]; simpl; [done|].
  destruct (isWhiteSpace d) eqn:Hd; [done|]. by intros [= <- _].
Qed.

Lemma blank_reverse s : blank (reverse s) ↔ blank s.
Proof.
  unfold blank. rewrite !Forall_forall.
  split; intros H c Hc; apply H; by rewrite ?elem_of_reverse in *.
Qed.

(** [!query.trim()] holds exactly for the blank queries. *)
Lemma trim_falsy_iff s : truthy (trim s) = false ↔ blank s.
Proof.
  unfold trim, trimEnd. split.
  - intros Hf.
    assert (trimStart (reverse (trimStart s)) = []) as Hnil.
    { destruct (trimStart (reverse (trimStart s))) as [|c t]; [done|].
      rewrite reverse_cons in Hf. by destruct (reverse t). }
    apply trimStart_nil_blank in Hnil. rewrite blank_reverse in Hnil.
    apply trimStart_nil_blank.
    destruct (trimStart s) as [|c t] eqn:E; [done|].
    apply trimStart_head in E. apply Forall_cons_1 in Hnil as [Hc _]. congruence.
  - intros Hb. by rewrite (trimStart_blank s Hb).
Qed.

Example trim_tabs_and_spaces :
  trim (lit " " ++ [0x0009; 0x00A0]%N ++ lit "God so loved "
          ++ [0x000A; 0x3000]%N)
  = lit "God so loved".
Proof. reflexivity. Qed.

Example blank_unicode_spaces : blank [0x0020; 0x2003; 0x2028; 0xFEFF]%N.
Proof. by repeat constructor. Qed.

(** *** Numbers in template literals *)

Lemma lit_inj s1 s2 : lit s1 = lit s2 → s1 = s2.
Proof.
  unfold lit. intros E.
  rewrite <- (string_of_list_ascii_of_string s1),
          <- (string_of_list_ascii_of_string s2).
  f_equal. revert E. generalize (list_ascii_of_string s2).
  induction (list_ascii_of_string s1) as [|a l IH]; intros [|b k]; simpl;
    try done.
  intros [= Hab Hlk]. f_equal; [|by apply IH].
  by rewrite <- (ascii_N_embedding a), Hab, ascii_N_embedding.
Qed.

Lemma to_int_normal z :
  Z.to_int z ≠ Decimal.Pos Decimal.Nil ∧ Z.to_int z ≠ Decimal.Neg Decimal.Nil.
Proof.
  assert (Z.to_int z = Decimal.norm (Z.to_int z)) as ->.
  { rewrite <- (DecimalZ.to_of (Z.to_int z)). by rewrite DecimalZ.of_to. }
  destruct (Z.to_int z) as [d|d]; simpl.
  - split; [|done]. intros [= E]. by apply unorm_nonnil in E.
  - by destruct (Decimal.nzhead d).
Qed.

Lemma Number_toString_inj z1 z2 :
  Number_toString z1 = Number_toString z2 → z1 = z2.
Proof.
  unfold Number_toString. intros E%lit_inj.
  apply DecimalZ.to_int_inj.
  destruct (to_int_normal z1) as [Hp1 Hn1], (to_int_normal z2) as [Hp2 Hn2].
  pose proof (NilZero.isi _ Hp1 Hn1) as E1.
  pose proof (NilZero.isi _ Hp2 Hn2) as E2.
  rewrite E in E1. congruence.
Qed.

(** The digits and the sign: no underscore (code unit 95) among them. *)
Lemma string_of_uint_no_underscore d :
  Forall (λ c, c ≠ 95%N) (lit (NilEmpty.string_of_uint d)).
Proof.
  induction d; simpl; constructor; try done; by apply IHd.
Qed.

Lemma Number_toString_no_underscore z : 95%N ∉ Number_toString z.
Proof.
  assert (∀ d, Forall (λ c, c ≠ 95%N) (lit (NilZero.string_of_uint d))) as Hu.
  { intros d. destruct d; try apply string_of_uint_no_underscore.
    by repeat constructor. }
  unfold Number_toString. intros Hin.
  assert (Forall (λ c, c ≠ 95%N) (lit (NilZero.string_of_int (Z.to_int z)))) as Hall.
  { destruct (Z.to_int z) as [d|d]; simpl; [apply Hu|].
    constructor; [done|apply Hu]. }
  rewrite Forall_forall in Hall. by apply (Hall _ Hin).
Qed.

End JsFacts.

(** ** Orders from comparisons *)

Module OrdFacts.
Import Ord.

Section laws.
Context {A : Type} (cmp : A → A → comparison) `{!CmpOrder cmp}.

Lemma cmp_gt_lt a b : cmp a b = Gt ↔ cmp b a = Lt.
Proof. rewrite (cmp_antisym cmp a b). destruct (cmp a b); simpl; split; congruence. Qed.

Lemma cmp_eq_sym a b : cmp a b = Eq → cmp b a = Eq.
Proof. intros H. by rewrite (cmp_antisym cmp a b), H. Qed.

Lemma cmp_lt_eq_trans a b c : cmp a b = Lt → cmp b c = Eq → cmp a c = Lt.
Proof.
  intros Hab Hbc. apply cmp_gt_lt.
  rewrite <- (cmp_eq_compat cmp b c a Hbc). by apply cmp_gt_lt.
Qed.

Lemma cmp_refl a : cmp a a = Eq.
Proof. pose proof (cmp_antisym cmp a a) as H. destruct (cmp a a); simpl in H; congruence. Qed.

#[export] Instance le_total : Total (le cmp).
Proof.
  intros a b. unfold le. rewrite (cmp_antisym cmp a b).
  destruct (cmp a b); simpl; [left|left|right]; congruence.
Qed.

#[export] Instance le_trans : Transitive (le cmp).
Proof.
  intros a b c. unfold le. intros Hab Hbc.
  destruct (cmp a b) eqn:Eab; [| |done].
  - by rewrite (cmp_eq_compat cmp a b c Eab).
  - destruct (cmp b c) eqn:Ebc; [| |done].
    + by rewrite (cmp_lt_eq_trans a b c Eab Ebc).
    + by rewrite (cmp_lt_trans cmp a b c Eab Ebc).
Qed.

#[export] Instance le_refl : Reflexive (le cmp).
Proof. intros a. unfold le. by rewrite cmp_refl. Qed.
End laws.

#[export] Instance Z_compare_order : CmpOrder Z.compare.
Proof.
  split.
  - intros a b. apply Z.compare_antisym.
  - intros a b c. rewrite !Z.compare_lt_iff. lia.
  - intros a b c ->%Z.compare_eq. done.
Qed.

#[export] Instance tie_order {A} : CmpOrder (@tie A).
Proof. by split. Qed.

#[export] Instance on_order {A B} (f : A → B) cmp `{!CmpOrder cmp} :
  CmpOrder (on f cmp).
Proof.
  split; unfold on.
  - intros a b. apply (cmp_antisym cmp).
  - intros a b c. apply (cmp_lt_trans cmp).
  - intros a b c. apply (cmp_eq_compat cmp).
Qed.

#[export] Instance desc_order {A} (cmp : A → A → comparison) `{!CmpOrder cmp} :
  CmpOrder (desc cmp).
Proof.
  split; unfold desc.
  - intros a b. apply (cmp_antisym cmp).
  - intros a b c Hba Hcb. by apply (cmp_lt_trans cmp c b a).
  - intros a b c Hba.
    rewrite (cmp_antisym cmp a c), (cmp_antisym cmp b c).
    f_equal. symmetry. by apply (cmp_eq_compat cmp).
Qed.

#[export] Instance lex_order {A} (c1 c2 : A → A → comparison)
  `{!CmpOrder c1, !CmpOrder c2} : CmpOrder (lex c1 c2).
Proof.
  split; unfold lex.
  - intros a b. rewrite (cmp_antisym c1 a b).
    destruct (c1 a b); simpl; [apply (cmp_antisym c2)|done..].
  - intros a b c.
    destruct (c1 a b) eqn:Eab; [| |done].
    + rewrite (cmp_eq_compat c1 a b c Eab).
      destruct (c1 b c); [|done..]. apply (cmp_lt_trans c2).
    + intros _. destruct (c1 b c) eqn:Ebc; [| |done]; intros _.
      * by rewrite (cmp_lt_eq_trans c1 a b c Eab Ebc).
      * by rewrite (cmp_lt_trans c1 a b c Eab Ebc).
  - intros a b c.
    destruct (c1 a b) eqn:Eab; [|done..]. intros E2.
    rewrite (cmp_eq_compat c1 a b c Eab).
    destruct (c1 b c); [|done..]. by apply (cmp_eq_compat c2).
Qed.


(** Code-unit-wise comparison of strings is such an order. *)
Lemma list_cmp_order : CmpOrder list_cmp.
Proof.
  split.
  - induction a as [|x a IH]; intros [|y b]; simpl; try done.
    rewrite (N.compare_antisym x y). destruct (x ?= y)%N; simpl; auto.
  - induction a as [|x a IH]; intros [|y b] [|z c]; simpl; try done.
    destruct (x ?= y)%N eqn:Exy; [| |done].
    + apply N.compare_eq in Exy as ->.
      destruct (y ?= z)%N; [|done..]. apply IH.
    + intros _. destruct (y ?= z)%N eqn:Eyz; [| |done]; intros _.
      * apply N.compare_eq in Eyz as <-. by rewrite Exy.
      * rewrite N.compare_lt_iff in Exy, Eyz.
        assert (x < z)%N as ->%N.compare_lt_iff by lia. done.
  - induction a as [|x a IH]; intros [|y b] c; simpl; try done.
    destruct (x ?= y)%N eqn:Exy; [|done..].
    apply N.compare_eq in Exy as ->. intros Hab.
    destruct c as [|z c]; [done|]. simpl.
    destruct (y ?= z)%N; [|done..]. by apply IH.
Qed.

End OrdFacts.

(** ** A small engine and corpus to run the definitions on *)

Module Example.
Import Js Ord OrdFacts.

(** Number of places at which [q] occurs in [v]. *)
Fixpoint occurrences (q v : jsstring) : nat :=
  match v with
  | [] => if bool_decide (q = []) then 1 else 0
  | _ :: v' => (if bool_decide (q `prefix_of` v) then 1 else 0) + occurrences q v'
  end%nat.

(** ASCII case folding, and a pattern [%text%] without its percent signs. *)
Definition lower (c : N) : N :=
  if (65 <=? c)%N && (c <=? 90)%N then (c + 32)%N else c.

Definition between_percents (pattern : jsstring) : jsstring :=
  let p := match pattern with 37%N :: p => p | _ => pattern end in
  match reverse p with 37%N :: r => reverse r | _ => p end.

(** A stand-in engine: the index entry is the text itself, a verse matches
    where the query occurs in it, ranks are occurrence counts, [ILIKE]
    looks for the text between the percent signs whatever its case, and
    strings are ordered code unit by code unit. *)
#[export] Instance engine : Pg.Engine := {|
  Pg.tsvector := jsstring;
  Pg.tsquery := jsstring;
  Pg.real := Z;
  Pg.to_tsvector := λ t, t;
  Pg.websearch_to_tsquery := λ q, q;
  Pg.ts_match := λ v q, bool_decide (0 < occurrences q v)%nat;
  Pg.ts_rank := λ v q, Z.of_nat (occurrences q v);
  Pg.ilike := λ v pattern,
    bool_decide
      (0 < occurrences (lower <$> between_percents pattern) (lower <$> v))%nat;
  Pg.text_cmp := list_cmp;
  Pg.real_cmp := Z.compare;
  Pg.text_cmp_order := list_cmp_order;
  Pg.real_cmp_order := Z_compare_order
|}.

Definition books : list Pg.Book := [
  {| Pg.book_id := 1; Pg.bk_book_name := lit "Genesis";
     Pg.testament := Pg.Old_Testament; Pg.seq_number := 1;
     Pg.chapter_count := 50 |};
  {| Pg.book_id := 2; Pg.bk_book_name := lit "Exodus";
     Pg.testament := Pg.Old_Testament; Pg.seq_number := 2;
     Pg.chapter_count := 40 |};
  {| Pg.book_id := 43; Pg.bk_book_name := lit "John";
     Pg.testament := Pg.New_Testament; Pg.seq_number := 43;
     Pg.chapter_count := 21 |} ].

Definition verse_row (book : string) (chapter verse : Z) (text : string) : Pg.Row :=
  Pg.mkRow (Pg.mkCols (lit book) chapter verse (lit text)) None.

Definition genesis_1_2 : Pg.Row :=
  verse_row "Genesis" 1 2
    "And the earth was without form, and void; and darkness was upon the face of the deep. And the Spirit of God moved upon the face of the waters.".

Definition genesis_1_1 : Pg.Row :=
  verse_row "Genesis" 1 1
    "In the beginning God created the heaven and the earth.".

Definition exodus_20_1 : Pg.Row :=
  verse_row "Exodus" 20 1 "And God spake all these words, saying,".

Definition exodus_2_24 : Pg.Row :=
  verse_row "Exodus" 2 24
    "And God heard their groaning, and God remembered his covenant with Abraham, with Isaac, and with Jacob.".

Definition john_3_16 : Pg.Row :=
  verse_row "John" 3 16
    "For God so loved the world, that he gave his only begotten Son, that whosoever believeth in him should not perish, but have everlasting life.".

(** The corpus, loaded by one [INSERT]. *)
Definition bulk_load : list Pg.Stmt :=
  [Pg.INSERT [genesis_1_2; genesis_1_1; john_3_16; exodus_20_1; exodus_2_24]].

Definition corpus : Pg.Table := Pg.run bulk_load.

(** The hits for "God" on the corpus: Exodus 2:24 has the word twice,
    the other verses once. *)
Definition hits_for_God : list Pg.Hit :=
  Pg.mkHit (Pg.cols exodus_2_24) 2
  :: ((λ v : Pg.Row, Pg.mkHit (Pg.cols v) 1)
        <$> [exodus_20_1; genesis_1_1; genesis_1_2; john_3_16]).

Definition fetch_failed : Supabase.Thrown :=
  {| Supabase.instanceofError := true; Supabase.message := lit "fetch failed" |}.

Definition john_3_16_verse : useBibleApi.Verse :=
  useBibleApi.transform (Pg.cols john_3_16).

Definition genesis_1_1_verse : useBibleApi.Verse :=
  useBibleApi.transform (Pg.cols genesis_1_1).

End Example.

(** ** Lists *)

Module ListFacts.

Lemma StronglySorted_take {A} (R : relation A) n l :
  StronglySorted R l → StronglySorted R (take n l).
Proof.
  intros Hl. rewrite <- (take_drop n l) in Hl.
  by apply StronglySorted_app_1_l in Hl.
Qed.

(** A list sorted by a key, with no key twice, is strictly sorted. *)
Lemma StronglySorted_strict {A} (f : A → Z) (R : relation A) (l : list A) :
  (∀ a b, R a b → f a ≤ f b) →
  StronglySorted R l → NoDup (f <$> l) →
  StronglySorted (λ a b, f a < f b) l.
Proof.
  intros HR. induction 1 as [|a l Hl IH Ha]; simpl; [constructor|].
  rewrite NoDup_cons. intros [Hnotin Hnd].
  constructor; [by apply IH|].
  rewrite Forall_forall in Ha |- *. intros b Hb.
  assert (f a ≠ f b).
  { intros E. apply Hnotin. rewrite E. by apply list_elem_of_fmap_2. }
  specialize (HR a b (Ha b Hb)). lia.
Qed.

Lemma NoDup_fmap_filter {A B} (f : A → B) (P : A → Prop)
    `{!∀ x, Decision (P x)} (l : list A) :
  NoDup (f <$> l) → NoDup (f <$> filter P l).
Proof.
  induction l as [|x l IH]; simpl; [done|].
  rewrite NoDup_cons. intros [Hnotin Hnd].
  rewrite filter_cons. case_decide; [|by apply IH].
  simpl. rewrite NoDup_cons. split; [|by apply IH].
  intros (y & E & Hy)%list_elem_of_fmap. apply Hnotin.
  apply list_elem_of_fmap. exists y. split; [done|].
  by apply list_elem_of_filter in Hy as [_ ?].
Qed.

Lemma filter_all {A} (P : A → Prop) `{!∀ x, Decision (P x)} (l : list A) :
  Forall P l → filter P l = l.
Proof.
  induction 1 as [|x l Hx _ IH]; [done|].
  rewrite filter_cons, decide_True by done. by rewrite IH.
Qed.

(** Splitting at the last occurrence of a separator is unambiguous. *)
Lemma app_sep_inj {A} (x : A) (l1 l2 r1 r2 : list A) :
  x ∉ r1 → x ∉ r2 → l1 ++ x :: r1 = l2 ++ x :: r2 → l1 = l2 ∧ r1 = r2.
Proof.
  intros H1 H2. revert l2.
  induction l1 as [|a l1 IH]; intros [|b l2]; simpl.
  - by intros [= ->].
  - intros [= <- ->]. destruct H1. apply elem_of_app. right. left.
  - intros [= -> <-]. destruct H2. apply elem_of_app. right. left.
  - intros [= -> E]. by destruct (IH _ E) as [-> ->].
Qed.

Lemma filter_fmap {A B} (f : A → B) (P : B → Prop) `{!∀ y, Decision (P y)}
    (l : list A) :
  filter P (f <$> l) = f <$> filter (λ x, P (f x)) l.
Proof.
  induction l as [|x l IH]; [done|].
  rewrite fmap_cons, !filter_cons, IH. by destruct (decide (P (f x))).
Qed.

Lemma filter_ext_in {A} (P Q : A → Prop) `{!∀ x, Decision (P x)}
    `{!∀ x, Decision (Q x)} (l : list A) :
  (∀ x, x ∈ l → P x ↔ Q x) → filter P l = filter Q l.
Proof.
  induction l as [|x l IH]; intros Hext; [done|].
  rewrite !filter_cons, IH by (intros; apply Hext; by right).
  destruct (decide (P x)) as [HP|HP], (decide (Q x)) as [HQ|HQ]; try done.
  - destruct HQ. by apply (Hext x); [left|].
  - destruct HP. by apply (Hext x); [left|].
Qed.

End ListFacts.

(** ** The schema: index maintenance and [search_verses] *)

Module PgFacts.
Import Js Ord OrdFacts ListFacts Pg.

Section engine.
Context `{Engine}.

(** *** The trigger keeps the index current *)

Lemma update_verse_text_tsv_current (NEW : Row) :
  verse_text_tsv (update_verse_text_tsv NEW)
  = Some (to_tsvector (verse_text (update_verse_text_tsv NEW))).
Proof. done. Qed.

Lemma write_index_consistent s t :
  index_consistent t → index_consistent (write s t).
Proof.
  intros Ht r. destruct s as [rows|set where_|where_]; simpl.
  - rewrite elem_of_app, list_elem_of_fmap.
    intros [Hr|(NEW & -> & _)]; [by apply Ht|].
    apply update_verse_text_tsv_current.
  - rewrite list_elem_of_fmap. intros (old & -> & Hold).
    destruct (where_ old); [apply update_verse_text_tsv_current | by apply Ht].
  - rewrite list_elem_of_filter. intros [_ Hr]. by apply Ht.
Qed.

Lemma exec_index_consistent s t :
  index_consistent t → index_consistent (exec t s).
Proof.
  intros Ht. unfold exec. case_decide; [by apply write_index_consistent|done].
Qed.

Lemma foldl_exec_index_consistent stmts t :
  index_consistent t → index_consistent (foldl exec t stmts).
Proof.
  revert t. induction stmts as [|s stmts IH]; intros t Ht; simpl; [done|].
  by apply IH, exec_index_consistent.
Qed.

Lemma exec_unique_key s t : unique_key t → unique_key (exec t s).
Proof. intros Ht. unfold exec. by case_decide. Qed.

Lemma run_unique_key stmts : unique_key (run stmts).
Proof.
  unfold run. assert (unique_key created) as Hc by constructor.
  revert Hc. generalize created.
  induction stmts as [|s stmts IH]; intros t Ht; simpl; [done|].
  by apply IH, exec_unique_key.
Qed.

(** *** Orders of result rows *)

#[export] Instance col_cmp_order c : CmpOrder (col_cmp c).
Proof.
  destruct c as [c|c]; unfold col_cmp; apply on_order;
    [apply text_cmp_order | apply Z_compare_order].
Qed.

#[export] Instance order_cmp_order keys : CmpOrder (order_cmp keys).
Proof.
  induction keys as [|k keys IH]; [apply tie_order|].
  change (CmpOrder (lex (col_cmp k) (order_cmp keys))).
  apply lex_order; [apply col_cmp_order | apply IH].
Qed.

#[export] Instance search_order_order : CmpOrder search_order.
Proof.
  unfold search_order.
  apply lex_order; [apply desc_order, on_order, real_cmp_order|].
  apply lex_order; [apply on_order, text_cmp_order|].
  apply lex_order; apply on_order, Z_compare_order.
Qed.

(** What [search_order] says of two hits, key by key. *)
Lemma search_order_le (a b : Hit) :
  le search_order a b ↔
    real_cmp (rank b) (rank a) = Lt
    ∨ real_cmp (rank b) (rank a) = Eq ∧
      (text_cmp (book_name a) (book_name b) = Lt
       ∨ text_cmp (book_name a) (book_name b) = Eq ∧
         (book_chapter a < book_chapter b
          ∨ book_chapter a = book_chapter b ∧ verse_number a ≤ verse_number b)).
Proof.
  unfold le, search_order, lex, desc, on.
  destruct (real_cmp (rank b) (rank a)); [|intuition (subst; congruence)..].
  destruct (text_cmp (book_name a) (book_name b)); [|intuition (subst; congruence)..].
  destruct (Z.compare_spec (book_chapter a) (book_chapter b)); [|intuition (congruence || lia)..].
  destruct (Z.compare_spec (verse_number a) (verse_number b)); intuition (congruence || lia).
Qed.

Lemma LIMIT_Some {A} (n : Z) (l : list A) :
  0 ≤ n → LIMIT (Some n) l = Ok (take (Z.to_nat n) l).
Proof. intros Hn. unfold LIMIT. by rewrite (proj2 (Z.ltb_ge n 0)). Qed.

Lemma LIMIT_negative {A} (n : Z) (l : list A) :
  n < 0 → LIMIT (Some n) l = Raise "LIMIT must not be negative".
Proof. intros Hn. unfold LIMIT. by rewrite (proj2 (Z.ltb_lt n 0)). Qed.

(** A negative bound makes the function raise instead of returning. *)
Lemma search_verses_negative_bound (t : Table) (search_query : TEXT) (n : Z) :
  n < 0 →
  search_verses t search_query (Some n) = Raise "LIMIT must not be negative".
Proof. intros Hn. unfold search_verses. by apply LIMIT_negative. Qed.

(** The hits of [search_verses] are the verses whose index entry matches
    the query, each with its rank. *)
Lemma elem_of_hits (t : Table) (q : tsquery) (h : Hit) :
  h ∈ omap (hit q) t ↔
    ∃ (v : Row) tsv, v ∈ t ∧ verse_text_tsv v = Some tsv ∧
      ts_match tsv q = true ∧ h = mkHit v (ts_rank tsv q).
Proof.
  rewrite list_elem_of_omap. unfold hit. split.
  - intros (v & Hv & Hh). destruct (verse_text_tsv v) as [tsv|] eqn:E; [|done].
    destruct (ts_match tsv q) eqn:Em; [|done].
    exists v, tsv. intuition (subst; congruence).
  - intros (v & tsv & Hv & E & Em & ->). exists v. by rewrite E, Em.
Qed.

Lemma search_verses_returns (t : Table) (search_query : TEXT) (n : Z) :
  0 ≤ n →
  ∃ hits,
    search_verses t search_query (Some n) = Ok hits
    ∧ Z.of_nat (length hits) ≤ n
    ∧ StronglySorted (le search_order) hits
    ∧ hits ⊆ omap (hit (websearch_to_tsquery search_query)) t.
Proof.
  intros Hn. unfold search_verses. rewrite LIMIT_Some by done.
  eexists. split; [done|]. split; [|split].
  - rewrite length_take. lia.
  - apply StronglySorted_take, StronglySorted_merge_sort; apply _.
  - intros h Hh%elem_of_take.
    destruct Hh as (i & Hi & _). apply list_elem_of_lookup_2 in Hi.
    by rewrite merge_sort_Permutation in Hi.
Qed.

(** *** Reads *)

Lemma select_sorted (t : Table) (q : Query) :
  StronglySorted (le (order_cmp (order q))) (select t q).
Proof.
  unfold select.
  assert (StronglySorted (le (order_cmp (order q)))
    (merge_sort (le (order_cmp (order q)))
       (filter (passing q) (cols <$> t)))) as Hs.
  { apply StronglySorted_merge_sort; apply _. }
  destruct (limit q); [by apply StronglySorted_take|done].
Qed.

Lemma select_length (t : Table) (q : Query) (n : nat) :
  limit q = Some n → (length (select t q) ≤ n)%nat.
Proof. intros E. unfold select. rewrite E, length_take. lia. Qed.

Lemma select_unlimited (t : Table) (q : Query) :
  limit q = None → select t q ≡ₚ filter (passing q) (cols <$> t).
Proof. intros E. unfold select. rewrite E. apply merge_sort_Permutation. Qed.

Lemma select_subseteq (t : Table) (q : Query) :
  select t q ⊆ filter (passing q) (cols <$> t).
Proof.
  unfold select. intros r Hr.
  rewrite <- (merge_sort_Permutation (le (order_cmp (order q)))).
  destruct (limit q); [|done].
  apply elem_of_take in Hr as (i & Hi & _). by eapply list_elem_of_lookup_2.
Qed.

(** Among the rows of one chapter the unique key is the verse number. *)
Lemma chapter_verse_numbers_NoDup (book : TEXT) (chapter : Z) (l : list Cols) :
  Forall (λ r, book_name r = book ∧ book_chapter r = chapter) l →
  NoDup (natural_key <$> l) → NoDup (verse_number <$> l).
Proof.
  induction 1 as [|r l [Hb Hc] Hl IH]; simpl; [constructor|].
  rewrite !NoDup_cons. intros [Hnotin Hnd]. split; [|by apply IH].
  rewrite list_elem_of_fmap. intros (r' & E & Hr'). apply Hnotin.
  rewrite Forall_forall in Hl. destruct (Hl r' Hr') as [Hb' Hc'].
  apply list_elem_of_fmap. exists r'. split; [|done].
  unfold natural_key. congruence.
Qed.

Lemma unique_key_cols (t : Table) :
  unique_key t → NoDup (natural_key <$> (cols <$> t)).
Proof. unfold unique_key. by rewrite <- list_fmap_compose. Qed.

End engine.

End PgFacts.

(** ** The hook *)

Module useBibleApiFacts.
Import Js Ord OrdFacts ListFacts Pg PgFacts Supabase useBibleApi.

(** A request on a faulty store: the verses stay, the message of what
    was thrown is recorded, and the body completes. *)
Lemma request_faulty fallback (supabase : Client) q st log :
  faulty (supabase q) →
  ∃ err,
    request fallback supabase q (mkWorld st log)
    = (mkWorld {| verses := verses st; loading := false;
                  error := Some (errorMessage fallback err) |} (log ++ [q]),
       Normal ()).
Proof.
  unfold faulty, request, load, tryFinally, tryCatch, await, mbind, Async_bind.
  simpl. destruct (supabase q) as [r|err]; [|by exists err].
  intros [err E]. rewrite E. by exists err.
Qed.

(** A request the store answers: the rows replace the verses and no
    error is left. *)
Lemma request_answered fallback (supabase : Client) q st log r :
  supabase q = resolves r → Supabase.error r = None →
  request fallback supabase q (mkWorld st log)
  = (mkWorld {| verses := transform <$> orEmpty (data r); loading := false;
                error := None |} (log ++ [q]),
     Normal ()).
Proof.
  unfold request, load, tryFinally, tryCatch, await, mbind, Async_bind.
  simpl. by intros -> ->.
Qed.

Lemma not_faulty_answered (supabase : Client) q :
  ¬ faulty (supabase q) →
  ∃ r, supabase q = resolves r ∧ Supabase.error r = None.
Proof.
  unfold faulty. destruct (supabase q) as [r|err]; [|by intros []].
  destruct (Supabase.error r) eqn:E; [by intros []|]. by exists r.
Qed.

(** After a request the error is null exactly when the store answered. *)
Lemma request_error fallback (supabase : Client) q st log :
  error (component (request fallback supabase q (mkWorld st log)).1) = None
  ↔ ¬ faulty (supabase q).
Proof.
  split.
  - intros E Hf.
    destruct (request_faulty fallback supabase q st log Hf) as [err Hr].
    by rewrite Hr in E.
  - intros (r & Hr & He)%not_faulty_answered.
    by rewrite (request_answered fallback supabase q st log r Hr He).
Qed.

(** Both functions finish normally and send one query, except that
    [searchVerses] sends none for a blank query. *)
Lemma request_sent fallback (supabase : Client) q st log :
  ∃ st', request fallback supabase q (mkWorld st log)
         = (mkWorld st' (log ++ [q]), Normal ()).
Proof.
  destruct (decide (faulty (supabase q))) as [Hf|Hf].
  - destruct (request_faulty fallback supabase q st log Hf) as [err ->].
    by eexists.
  - apply not_faulty_answered in Hf as (r & Hr & He).
    rewrite (request_answered fallback supabase q st log r Hr He). by eexists.
Qed.

Lemma fetchChapter_issued supabase st book chapter :
  issued (fetchChapter supabase st book chapter) = [chapter_query book chapter]
  ∧ settled (fetchChapter supabase st book chapter) = fulfilled ().
Proof.
  unfold fetchChapter, call, fetchChapter_body.
  destruct (request_sent "Failed to fetch chapter" supabase
              (chapter_query book chapter) st []) as [st' ->].
  done.
Qed.

Lemma fetchChapter_error supabase st book chapter :
  error (state (fetchChapter supabase st book chapter)) = None
  ↔ ¬ faulty (supabase (chapter_query book chapter)).
Proof.
  rewrite <- (request_error "Failed to fetch chapter" supabase _ st []).
  unfold fetchChapter, call, fetchChapter_body.
  by destruct (request _ _ _ _) as [w c].
Qed.

Lemma fetchChapter_faulty supabase st book chapter :
  faulty (supabase (chapter_query book chapter)) →
  ∃ msg, state (fetchChapter supabase st book chapter)
         = {| verses := verses st; loading := false; error := Some msg |}.
Proof.
  intros Hf. unfold fetchChapter, call, fetchChapter_body.
  destruct (request_faulty "Failed to fetch chapter" supabase _ st [] Hf)
    as [err ->].
  by eexists.
Qed.

Lemma searchVerses_blank supabase st query :
  blank query →
  searchVerses supabase st query
  = {| state := setVerses [] st; issued := []; settled := fulfilled () |}.
Proof.
  intros Hb%JsFacts.trim_falsy_iff.
  unfold searchVerses, call, searchVerses_body. by rewrite Hb.
Qed.

Lemma searchVerses_not_blank supabase st query :
  ¬ blank query →
  searchVerses supabase st query
  = call (request "Failed to search verses" supabase (searchVerses_query query)) st.
Proof.
  intros Hb. unfold searchVerses, searchVerses_body.
  destruct (truthy (trim query)) eqn:E; [done|].
  by apply JsFacts.trim_falsy_iff in E.
Qed.

Lemma searchVerses_faulty supabase st query :
  ¬ blank query →
  faulty (supabase (searchVerses_query query)) →
  ∃ msg, state (searchVerses supabase st query)
         = {| verses := verses st; loading := false; error := Some msg |}.
Proof.
  intros Hq Hf. rewrite (searchVerses_not_blank _ _ _ Hq). unfold call.
  destruct (request_faulty "Failed to search verses" supabase _ st [] Hf)
    as [err ->].
  by eexists.
Qed.

(** [handleTopicsSearch] turns any fault into the empty sequence. *)
Lemma handleTopicsSearch_faulty supabase query :
  faulty (supabase (HomePage.handleTopicsSearch_query query)) →
  HomePage.handleTopicsSearch supabase query
  = (fulfilled [], [HomePage.handleTopicsSearch_query query]).
Proof.
  unfold faulty, HomePage.handleTopicsSearch, HomePage.handleTopicsSearch_body.
  unfold tryCatch, await, mbind, Async_bind. simpl.
  destruct (supabase _) as [r|err]; [|done].
  by intros [err ->].
Qed.

Section engine.
Context `{Engine}.

(** A reachable store answers a read whose values are of the columns'
    types ... *)
Lemma connected_answers (t : Table) q :
  out_of_range (filters q) = None →
  connected t q
  = resolves {| data := Some (select t q); Supabase.error := None |}.
Proof. intros Hq. unfold connected, read. by rewrite Hq. Qed.

(** ... and refuses the others. *)
Lemma connected_refuses (t : Table) q v :
  out_of_range (filters q) = Some v →
  connected t q
  = resolves {| data := None;
                Supabase.error :=
                  Some {| instanceofError := false;
                          message := lit (out_of_range_message v) |} |}.
Proof. intros Hq. unfold connected, read. by rewrite Hq. Qed.

Lemma connected_faulty (t : Table) q :
  faulty (connected t q) ↔ out_of_range (filters q) ≠ None.
Proof.
  destruct (out_of_range (filters q)) as [v|] eqn:Hq.
  - rewrite (connected_refuses t q v Hq). simpl. split; [done|by eexists].
  - rewrite (connected_answers t q Hq). simpl. split; [|done].
    by intros [? ?].
Qed.

Lemma request_connected fallback (t : Table) q st :
  out_of_range (filters q) = None →
  call (request fallback (connected t) q) st
  = {| state := {| verses := transform <$> select t q; loading := false;
                   error := None |};
       issued := [q]; settled := fulfilled () |}.
Proof.
  intros Hq. pose proof (connected_answers t q Hq) as Hc.
  unfold call, request, load, tryFinally, tryCatch, await, mbind, Async_bind.
  simpl. by rewrite Hc.
Qed.

(** A refused read leaves the verses as they were and records the
    fallback message of the caller. *)
Lemma request_refused fallback (t : Table) q st v :
  out_of_range (filters q) = Some v →
  call (request fallback (connected t) q) st
  = {| state := {| verses := verses st; loading := false;
                   error := Some (lit fallback) |};
       issued := [q]; settled := fulfilled () |}.
Proof.
  intros Hq. pose proof (connected_refuses t q v Hq) as Hc.
  unfold call, request, load, tryFinally, tryCatch, await, mbind, Async_bind.
  simpl. by rewrite Hc.
Qed.

Lemma out_of_range_chapter_query book chapter :
  out_of_range (filters (chapter_query book chapter))
  = if decide (INTEGER_range chapter) then None else Some chapter.
Proof. done. Qed.


Lemma fetchChapter_connected (t : Table) st book chapter :
  INTEGER_range chapter →
  state (fetchChapter (connected t) st book chapter)
  = {| verses := transform <$> select t (chapter_query book chapter);
       loading := false; error := None |}.
Proof.
  intros Hc. unfold fetchChapter, fetchChapter_body.
  rewrite request_connected; [done|].
  rewrite out_of_range_chapter_query. by destruct (decide _).
Qed.

(** A chapter number that is no [INTEGER] is refused: the hook keeps its
    verses and shows its fallback message. *)
Lemma fetchChapter_refused (t : Table) st book chapter :
  ¬ INTEGER_range chapter →
  fetchChapter (connected t) st book chapter
  = {| state := {| verses := verses st; loading := false;
                   error := Some (lit "Failed to fetch chapter") |};
       issued := [chapter_query book chapter]; settled := fulfilled () |}.
Proof.
  intros Hc. unfold fetchChapter, fetchChapter_body.
  apply (request_refused _ _ _ _ chapter).
  rewrite out_of_range_chapter_query. by destruct (decide _).
Qed.

Lemma passing_chapter_query book chapter (r : Cols) :
  passing (chapter_query book chapter) r
  ↔ book_name r = book ∧ book_chapter r = chapter.
Proof.
  unfold passing. simpl. rewrite !andb_true_iff, !bool_decide_eq_true.
  intuition (subst; congruence).
Qed.

(** The rows of a chapter come strictly ascending by verse number. *)
Lemma select_chapter_ascending (t : Table) book chapter :
  unique_key t →
  StronglySorted (λ a b : Cols, verse_number a < verse_number b)
    (select t (chapter_query book chapter)).
Proof.
  intros Ht.
  pose proof (select_unlimited t (chapter_query book chapter) eq_refl) as Hp.
  apply (StronglySorted_strict verse_number
           (le (order_cmp (order (chapter_query book chapter))))).
  - intros a b. unfold le. simpl. unfold lex, on, tie, int_col.
    destruct (Z.compare_spec (verse_number a) (verse_number b));
      intros Hne; [lia | lia | done].
  - apply select_sorted.
  - apply (chapter_verse_numbers_NoDup book chapter).
    + rewrite Forall_forall. intros r Hr. rewrite Hp in Hr.
      apply list_elem_of_filter in Hr as [Hr _].
      by apply passing_chapter_query.
    + rewrite Hp. by apply NoDup_fmap_filter, unique_key_cols.
Qed.

(** ... and they are the stored rows of that chapter, no more, no less. *)
Lemma elem_of_select_chapter (t : Table) book chapter (r : Cols) :
  r ∈ select t (chapter_query book chapter)
  ↔ r ∈ cols <$> t ∧ book_name r = book ∧ book_chapter r = chapter.
Proof.
  rewrite (select_unlimited t (chapter_query book chapter) eq_refl).
  rewrite list_elem_of_filter, passing_chapter_query. intuition (subst; congruence).
Qed.

Lemma select_chapter_empty (t : Table) book chapter :
  (∀ r : Row, r ∈ t → ¬ (book_name r = book ∧ book_chapter r = chapter)) →
  select t (chapter_query book chapter) = [].
Proof.
  intros Hnone.
  destruct (select t (chapter_query book chapter)) as [|r l] eqn:E; [done|].
  assert (r ∈ select t (chapter_query book chapter)) as Hr
    by (rewrite E; left).
  apply elem_of_select_chapter in Hr as [(row & -> & Hrow)%list_elem_of_fmap Hk].
  by destruct (Hnone row Hrow).
Qed.

(** With the store reachable, [searchVerses] shows at most 100 verses,
    ordered by book name, chapter and verse number; no rank is involved. *)
Lemma searchVerses_connected (t : Table) st query :
  ¬ blank query →
  let vs := verses (state (searchVerses (connected t) st query)) in
  (length vs ≤ 100)%nat ∧ StronglySorted (le verse_order) vs.
Proof.
  intros Hq. cbv zeta. rewrite (searchVerses_not_blank _ _ _ Hq).
  rewrite request_connected by done. cbn [state verses]. split.
  - rewrite length_fmap. by apply select_length.
  - eapply StronglySorted_fmap; [|apply select_sorted].
    intros a b. unfold le, verse_order. simpl.
    unfold lex, on, tie, transform, text_col, int_col. simpl.
    destruct (text_cmp (book_name a) (book_name b)); [|done..].
    destruct (book_chapter a ?= book_chapter b); [|done..].
    by destruct (verse_number a ?= verse_number b).
Qed.

End engine.

(** *** The scenarios of the specification, on the example corpus *)

Example fetchChapter_Genesis_1 :
  (λ v, (chapter v, verse v))
    <$> verses (state (fetchChapter (connected Example.corpus) initial
                         (lit "Genesis") 1))
  = [(1, 1); (1, 2)].
Proof. vm_compute. reflexivity. Qed.

Example fetchChapter_Nonexistent_1 :
  fetchChapter (connected Example.corpus) initial (lit "Nonexistent") 1
  = {| state := initial;
       issued := [chapter_query (lit "Nonexistent") 1];
       settled := fulfilled () |}.
Proof. vm_compute. reflexivity. Qed.

(** A chapter number past the largest [INTEGER]: the store refuses it. *)
Example fetchChapter_Genesis_2147483648 :
  fetchChapter (connected Example.corpus) initial (lit "Genesis") 2147483648
  = {| state := {| verses := []; loading := false;
                   error := Some (lit "Failed to fetch chapter") |};
       issued := [chapter_query (lit "Genesis") 2147483648];
       settled := fulfilled () |}.
Proof. vm_compute. reflexivity. Qed.

Example out_of_range_message_2147483648 :
  lit (out_of_range_message 2147483648)
  = lit "value " ++ [34%N] ++ lit "2147483648" ++ [34%N]
    ++ lit " is out of range for type integer"
  ∧ connected Example.corpus (chapter_query (lit "Genesis") 2147483648)
    = resolves {| data := None;
                  Supabase.error :=
                    Some {| instanceofError := false;
                            message :=
                              lit (out_of_range_message 2147483648) |} |}.
Proof. split; reflexivity. Qed.

Example searchVerses_god :
  (λ v, (book v, chapter v, verse v))
    <$> verses (state (searchVerses (connected Example.corpus) initial (lit "god")))
  = [(lit "Exodus", 2, 24); (lit "Exodus", 20, 1); (lit "Genesis", 1, 1);
     (lit "Genesis", 1, 2); (lit "John", 3, 16)].
Proof. vm_compute. reflexivity. Qed.

Example searchVerses_store_down :
  searchVerses (unreachable Example.fetch_failed) initial (lit "love")
  = {| state := {| verses := []; loading := false;
                   error := Some (lit "fetch failed") |};
       issued := [searchVerses_query (lit "love")];
       settled := fulfilled () |}.
Proof. vm_compute. reflexivity. Qed.

End useBibleApiFacts.

(** ** The page: favorites and topics *)

Module HomePageFacts.
Import Js Supabase HomePage.
Import useBibleApi (Verse, mkVerse, book, chapter, verse, text).

(** *** The key set *)

Lemma has_true s k : has s k = true ↔ k ∈ s.
Proof. unfold has. apply bool_decide_eq_true. Qed.

Lemma has_false s k : has s k = false ↔ k ∉ s.
Proof. unfold has. apply bool_decide_eq_false. Qed.

Lemma elem_of_add s k x : x ∈ add s k ↔ x ∈ s ∨ x = k.
Proof.
  unfold add. destruct (has s k) eqn:E.
  - apply has_true in E. intuition (subst; congruence).
  - rewrite elem_of_app, list_elem_of_singleton. done.
Qed.

Lemma elem_of_delete s k x : x ∈ delete s k ↔ x ∈ s ∧ x ≠ k.
Proof. unfold delete. rewrite list_elem_of_filter. intuition (subst; congruence). Qed.

Lemma NoDup_add s k : NoDup s → NoDup (add s k).
Proof.
  intros Hs. unfold add. destruct (has s k) eqn:E; [done|].
  apply has_false in E. apply NoDup_app. split; [done|].
  split; [|apply NoDup_singleton].
  intros x Hx ->%list_elem_of_singleton. done.
Qed.

Lemma NoDup_delete s k : NoDup s → NoDup (delete s k).
Proof. apply NoDup_filter. Qed.

(** Toggling changes the membership of the toggled key and of no other. *)
Lemma handleToggleFavorite_has st verse k :
  has (favorites (handleToggleFavorite st verse)) k
  = if bool_decide (k = verseKey verse) then negb (has (favorites st) k)
    else has (favorites st) k.
Proof.
  unfold handleToggleFavorite.
  destruct (has (favorites st) (verseKey verse)) eqn:E; simpl;
    case_bool_decide as Hk; subst.
  - rewrite E. apply has_false. rewrite elem_of_delete. intuition (subst; congruence).
  - apply bool_decide_ext. rewrite elem_of_delete. intuition (subst; congruence).
  - rewrite E. apply has_true. rewrite elem_of_add. by right.
  - apply bool_decide_ext. rewrite elem_of_add. intuition (subst; congruence).
Qed.

Lemma favoritesEffect_favorites verses st :
  favorites (favoritesEffect verses st) = favorites st.
Proof. done. Qed.

Lemma NoDup_handleToggleFavorite st verse :
  NoDup (favorites st) → NoDup (favorites (handleToggleFavorite st verse)).
Proof.
  intros Hs. unfold handleToggleFavorite.
  destruct (has (favorites st) (verseKey verse)); simpl;
    [by apply NoDup_delete | by apply NoDup_add].
Qed.

(** The key of a verse determines its book, chapter and verse number:
    the numbers hold no underscore, so the key splits in one way only. *)
Lemma verseKey_inj v w : verseKey v = verseKey w ↔ compositeKey v = compositeKey w.
Proof.
  unfold verseKey, compositeKey. split; [|by intros [= -> -> ->]].
  change (lit "_") with [95%N]. rewrite !app_assoc.
  rewrite <- !(app_assoc _ [95%N] (Number_toString (verse _))). simpl.
  intros [E1 Ev%JsFacts.Number_toString_inj]%ListFacts.app_sep_inj;
    try apply JsFacts.Number_toString_no_underscore.
  rewrite <- !app_assoc in E1. simpl in E1.
  apply ListFacts.app_sep_inj in E1
    as [-> Ec%JsFacts.Number_toString_inj];
    try apply JsFacts.Number_toString_no_underscore.
  by rewrite Ec, Ev.
Qed.

(** So the favorites and the topics identify verses alike. *)
Lemma hasKey_sameVerse verse v : hasKey (verseKey verse) v = sameVerse verse v.
Proof.
  destruct (sameVerse verse v) eqn:E.
  - apply bool_decide_eq_true. apply verseKey_inj.
    revert E. unfold sameVerse, compositeKey.
    rewrite !andb_true_iff, !bool_decide_eq_true. by intros [[-> ->] ->].
  - apply bool_decide_eq_false. intros Hk%verseKey_inj.
    revert E Hk. unfold sameVerse, compositeKey. intros E [= Hb Hc Hv].
    by rewrite !bool_decide_eq_true_2 in E.
Qed.

(** *** The array of favorite verses *)

Lemma findIndex_ge {A} (p : A → bool) l : -1 ≤ findIndex p l.
Proof.
  induction l as [|x l IH]; simpl; [done|].
  destruct (p x); [done|]. destruct (Z.eqb_spec (findIndex p l) (-1)); lia.
Qed.

Lemma splice1_findIndex key vs :
  (if findIndex (hasKey key) vs >? -1
   then splice1 (Z.to_nat (findIndex (hasKey key) vs)) vs else vs)
  = removeFirst key vs.
Proof.
  induction vs as [|v vs IH]; simpl; [done|].
  destruct (hasKey key v); [done|].
  pose proof (findIndex_ge (hasKey key) vs) as Hge.
  destruct (Z.eqb_spec (findIndex (hasKey key) vs) (-1)) as [E|E].
  - rewrite E in IH. simpl in *. by rewrite <- IH.
  - destruct (Z.gtb_spec (findIndex (hasKey key) vs) (-1)) as [Hgt|]; [|lia].
    destruct (Z.gtb_spec (findIndex (hasKey key) vs + 1) (-1)); [|lia].
    rewrite Z2Nat.inj_add by lia. rewrite Nat.add_1_r. simpl. by rewrite IH.
Qed.

Lemma entries_cons key v vs :
  entries key (v :: vs)
  = ((if hasKey key v then 1 else 0) + entries key vs)%nat.
Proof.
  unfold entries, hasKey. rewrite filter_cons.
  case_decide; [by rewrite bool_decide_eq_true_2 | by rewrite bool_decide_eq_false_2].
Qed.

Lemma entries_app key vs ws :
  entries key (vs ++ ws) = (entries key vs + entries key ws)%nat.
Proof. unfold entries. by rewrite filter_app, length_app. Qed.

Lemma hasKey_true key v : hasKey key v = true ↔ verseKey v = key.
Proof. unfold hasKey. apply bool_decide_eq_true. Qed.

Lemma entries_removeFirst key k vs :
  entries k (removeFirst key vs)
  = if bool_decide (k = key) then Nat.pred (entries k vs) else entries k vs.
Proof.
  induction vs as [|v vs IH]; simpl; [by case_bool_decide|].
  rewrite entries_cons. destruct (hasKey key v) eqn:Ev.
  - apply hasKey_true in Ev. case_bool_decide as Hk; subst; unfold hasKey.
    + by rewrite bool_decide_eq_true_2.
    + rewrite bool_decide_eq_false_2 by congruence. done.
  - rewrite entries_cons, IH. apply bool_decide_eq_false in Ev.
    case_bool_decide as Hk; subst; [|done].
    unfold hasKey. by rewrite bool_decide_eq_false_2.
Qed.

Lemma handleToggleFavorite_agree st verse :
  favoritesAgree st → favoritesAgree (handleToggleFavorite st verse).
Proof.
  intros Hst k. rewrite handleToggleFavorite_has.
  unfold handleToggleFavorite. specialize (Hst k).
  destruct (has (favorites st) (verseKey verse)) eqn:E; simpl.
  - rewrite splice1_findIndex, entries_removeFirst.
    case_bool_decide as Hk; subst; [|done]. by rewrite Hst, E.
  - rewrite entries_app, entries_cons. unfold entries at 2. simpl.
    unfold hasKey. rewrite (bool_decide_ext _ (k = verseKey verse)) by done.
    case_bool_decide as Hk; subst; [|lia]. rewrite Hst, E. done.
Qed.

(** *** The effect that rebuilds the array *)

Lemma find_Some_hasKey key vs v : find (hasKey key) vs = Some v → verseKey v = key.
Proof.
  induction vs as [|w vs IH]; simpl; [done|].
  destruct (hasKey key w) eqn:E; [|done].
  intros [= <-]. by apply hasKey_true.
Qed.

Lemma find_None_entries key vs : find (hasKey key) vs = None → entries key vs = 0%nat.
Proof.
  induction vs as [|w vs IH]; simpl; [done|].
  rewrite entries_cons. destruct (hasKey key w); [done|]. auto.
Qed.

Lemma findVerseByKey_Some verses favoriteVerses key v :
  findVerseByKey verses favoriteVerses key = Some v → verseKey v = key.
Proof.
  unfold findVerseByKey.
  destruct (find (hasKey key) verses) eqn:E1; [intros [= <-]; by eapply find_Some_hasKey|].
  destruct (find (hasKey key) favoriteVerses) eqn:E2; [|done].
  intros [= <-]. by eapply find_Some_hasKey.
Qed.

Lemma findVerseByKey_None verses favoriteVerses key :
  findVerseByKey verses favoriteVerses key = None →
  entries key favoriteVerses = 0%nat.
Proof.
  unfold findVerseByKey. destruct (find (hasKey key) verses); [done|].
  destruct (find (hasKey key) favoriteVerses) eqn:E; [done|].
  intros _. by apply find_None_entries.
Qed.

Lemma entries_rebuilt (f : jsstring → option Verse) (s : StringSet) k :
  (∀ key, key ∈ s → ∃ v, f key = Some v ∧ verseKey v = key) →
  entries k (omap f s) = length (filter (λ key, key = k) s).
Proof.
  induction s as [|key s IH]; intros Hf; [done|].
  destruct (Hf key) as (v & Ev & Hv); [left|].
  assert (omap f (key :: s) = v :: omap f s) as -> by (simpl; by rewrite Ev).
  rewrite entries_cons, filter_cons, IH by (intros; apply Hf; by right).
  unfold hasKey. rewrite Hv. case_decide; subst.
  - by rewrite bool_decide_eq_true_2.
  - by rewrite bool_decide_eq_false_2.
Qed.

Lemma NoDup_filter_eq_length (s : StringSet) k :
  NoDup s → length (filter (λ key, key = k) s) = if has s k then 1%nat else 0%nat.
Proof.
  induction 1 as [|key s Hnotin Hs IH]; simpl; [done|].
  rewrite filter_cons. case_decide; subst; simpl; rewrite IH; unfold has.
  - rewrite (bool_decide_eq_true_2 (k ∈ k :: s)) by left.
    by rewrite bool_decide_eq_false_2.
  - apply (f_equal (λ b : bool, if b then 1%nat else 0%nat)).
    apply bool_decide_ext. rewrite elem_of_cons. intuition (subst; congruence).
Qed.

Lemma favoritesEffect_agree verses st :
  NoDup (favorites st) → favoritesAgree st →
  favoritesAgree (favoritesEffect verses st).
Proof.
  intros Hs Hst k. unfold favoritesEffect. simpl.
  rewrite entries_rebuilt; [by apply NoDup_filter_eq_length|].
  intros key Hkey.
  destruct (findVerseByKey verses (favoriteVerses st) key) as [v|] eqn:E.
  - exists v. split; [done|]. by eapply findVerseByKey_Some.
  - apply findVerseByKey_None in E. rewrite (Hst key) in E.
    apply has_true in Hkey. by rewrite Hkey in E.
Qed.

(** Every reachable state has a duplicate-free key set and agreeing
    collections. *)
Lemma clicks_invariant cs :
  NoDup (favorites (clicks cs)) ∧ favoritesAgree (clicks cs).
Proof.
  unfold clicks.
  assert (NoDup (favorites mounted) ∧ favoritesAgree mounted) as Hinit.
  { split; [constructor|]. by intros key. }
  revert Hinit. generalize mounted.
  induction cs as [|[vs v] cs IH]; intros st [Hs Hst]; simpl; [done|].
  apply IH. unfold click, toggle. cbn [fst snd]. split.
  - rewrite favoritesEffect_favorites. by apply NoDup_handleToggleFavorite.
  - apply favoritesEffect_agree;
      [by apply NoDup_handleToggleFavorite | by apply handleToggleFavorite_agree].
Qed.

(** *** Topics *)

Lemma withVerses_verses topic : withVerses topic (verses topic) = topic.
Proof. by destruct topic. Qed.

Lemma sameVerse_true verse v :
  sameVerse verse v = true ↔ compositeKey v = compositeKey verse.
Proof.
  unfold sameVerse, compositeKey.
  rewrite !andb_true_iff, !bool_decide_eq_true. split.
  - intros [[-> ->] ->]. done.
  - intros [= -> -> ->]. done.
Qed.

Lemma existsb_sameVerse verse vs :
  existsb (sameVerse verse) vs = true
  ↔ compositeKey verse ∈ compositeKey <$> vs.
Proof.
  induction vs as [|v vs IH]; simpl.
  - split; [done|]. by intros ?%elem_of_nil.
  - rewrite orb_true_iff, elem_of_cons, IH, sameVerse_true.
    split; (intros [E|?]; [left|right]); done.
Qed.

Lemma addVerseTo_present topicId verse topic :
  existsb (sameVerse verse) (verses topic) = true →
  addVerseTo topicId verse topic = topic.
Proof.
  intros E. unfold addVerseTo. rewrite E. by case_bool_decide.
Qed.

Lemma removeVerseFrom_absent topicId verse topic :
  existsb (sameVerse verse) (verses topic) = false →
  removeVerseFrom topicId verse topic = topic.
Proof.
  intros E. unfold removeVerseFrom. case_bool_decide; [|done].
  rewrite ListFacts.filter_all; [apply withVerses_verses|].
  rewrite Forall_forall. intros v Hv.
  destruct (sameVerse verse v) eqn:Ev; [|done].
  assert (existsb (sameVerse verse) (verses topic) = true) as Et; [|congruence].
  apply existsb_sameVerse, list_elem_of_fmap.
  exists v. split; [|done]. symmetry. by apply sameVerse_true.
Qed.

(** After an addition the verse is there, so adding it again does nothing. *)
Lemma addVerseTo_twice topicId verse topic :
  addVerseTo topicId verse (addVerseTo topicId verse topic)
  = addVerseTo topicId verse topic.
Proof.
  destruct (existsb (sameVerse verse) (verses topic)) eqn:E.
  { by rewrite !(addVerseTo_present topicId verse topic E). }
  assert (addVerseTo topicId verse topic = topic
          ∨ addVerseTo topicId verse topic
            = withVerses topic (verses topic ++ [verse])) as [Ha|Ha].
  { unfold addVerseTo. rewrite E. case_bool_decide; auto. }
  all: rewrite Ha.
  - exact Ha.
  - apply addVerseTo_present. simpl. rewrite existsb_app. simpl.
    assert (sameVerse verse verse = true) as -> by by apply sameVerse_true.
    by rewrite orb_true_r.
Qed.

Lemma addVerseTo_noDuplicate topicId verse topic :
  noDuplicateVerse topic → noDuplicateVerse (addVerseTo topicId verse topic).
Proof.
  intros Ht. unfold addVerseTo. case_bool_decide; [|done].
  destruct (existsb (sameVerse verse) (verses topic)) eqn:E; simpl; [done|].
  unfold noDuplicateVerse. simpl. rewrite fmap_app. apply NoDup_app.
  split; [done|]. split; [|apply NoDup_singleton].
  intros k Hk ->%list_elem_of_singleton.
  apply existsb_sameVerse in Hk. congruence.
Qed.

Lemma removeVerseFrom_noDuplicate topicId verse topic :
  noDuplicateVerse topic → noDuplicateVerse (removeVerseFrom topicId verse topic).
Proof.
  intros Ht. unfold removeVerseFrom. case_bool_decide; [|done].
  unfold noDuplicateVerse. simpl. by apply ListFacts.NoDup_fmap_filter.
Qed.

Lemma handle_noDuplicate st e :
  createsNoDuplicate e →
  Forall noDuplicateVerse (topics st) →
  Forall noDuplicateVerse (topics (handle st e)).
Proof.
  intros He Hst. destruct e as [now d|topicId|topicId v|topicId v]; simpl.
  - apply Forall_app. split; [done|]. by apply Forall_singleton.
  - rewrite Forall_forall in Hst |- *.
    intros topic [_ Ht]%list_elem_of_filter. by apply Hst.
  - apply Forall_fmap. eapply Forall_impl; [done|].
    intros topic. apply addVerseTo_noDuplicate.
  - apply Forall_fmap. eapply Forall_impl; [done|].
    intros topic. apply removeVerseFrom_noDuplicate.
Qed.

Lemma foldl_handle_noDuplicate es st :
  Forall createsNoDuplicate es →
  Forall noDuplicateVerse (topics st) →
  Forall noDuplicateVerse (topics (foldl handle st es)).
Proof.
  revert st. induction es as [|e es IH]; intros st Hes Hst; simpl; [done|].
  apply Forall_cons_1 in Hes as [He Hes].
  apply IH; [done|]. by apply handle_noDuplicate.
Qed.

End HomePageFacts.

(** * The contract of the specification *)

Module Contract.
Import Js Ord OrdFacts ListFacts Pg PgFacts Supabase.
Import useBibleApi useBibleApiFacts.

(** The examples run on the engine and corpus of [Example]. *)
#[local] Existing Instance Example.engine.

(** ** Search *)

(** C1, as amended. For every query and every bound [n ≥ 0],
    [search_verses] returns at most [n] hits, ordered by descending rank;
    hits of equal rank come by book name in the text order of the store,
    then by chapter, then by verse number, all ascending. The bound left
    out is 100. The book names are compared as text: the canonical
    sequence of the books plays no part. *)
Theorem search_verses_bounded_and_ordered `{Engine}
    (t : Table) (search_query : TEXT) (n : Z) :
  0 ≤ n →
  (∃ hits,
     search_verses t search_query (Some n) = Ok hits
     ∧ Z.of_nat (length hits) ≤ n
     ∧ StronglySorted (le search_order) hits)
  ∧ (∃ hits,
       search_verses_default t search_query = Ok hits
       ∧ (length hits ≤ 100)%nat
       ∧ StronglySorted (le search_order) hits).
Proof.
  intros Hn. split.
  - destruct (search_verses_returns t search_query n Hn)
      as (hits & E & Hlen & Hsorted & _). by exists hits.
  - destruct (search_verses_returns t search_query 100 ltac:(lia))
      as (hits & E & Hlen & Hsorted & _). exists hits.
    split; [done|]. split; [lia|done].
Qed.

Lemma search_verses_bounded_and_ordered_witness :
  ∃ hits,
    search_verses Example.corpus (lit "God") (Some 2) = Ok hits
    ∧ Z.of_nat (length hits) ≤ 2
    ∧ StronglySorted (le search_order) hits.
Proof.
  apply (search_verses_bounded_and_ordered Example.corpus (lit "God") 2).
  lia.
Defined.

(** C1 as worded fails: on the example corpus four hits for "God" have
    rank 1, and among them Exodus comes before Genesis, against the
    canonical order of the books. *)
Lemma search_verses_ties_against_canonical_order :
  search_verses_default Example.corpus (lit "God") = Ok Example.hits_for_God
  ∧ (λ h : Hit, (book_name h, book_chapter h, verse_number h, rank h))
      <$> Example.hits_for_God
    = [(lit "Exodus", 2, 24, 2); (lit "Exodus", 20, 1, 1);
       (lit "Genesis", 1, 1, 1); (lit "Genesis", 1, 2, 1);
       (lit "John", 3, 16, 1)]
  ∧ seq_number_of Example.books (lit "Genesis") = Some 1
  ∧ seq_number_of Example.books (lit "Exodus") = Some 2
  ∧ ¬ Sorted (le (canonical_order Example.books)) Example.hits_for_God.
Proof.
  do 4 (split; [vm_compute; reflexivity|]).
  intros Hs. apply (bool_decide_pack _) in Hs. vm_compute in Hs. exact Hs.
Qed.

(** C2, as amended. When the store cannot be queried during a search,
    [searchVerses] (on a query that is not blank) records a message in the
    hook's [error] and leaves the verses as they were, while an answered
    query leaves [error] null: its callers can tell the two apart.
    [handleTopicsSearch] answers a fault with the empty sequence. *)
Theorem search_fault_reported_by_hook_only `{Engine}
    (supabase : Client) (t : Table) (st : State) (query : jsstring) :
  ¬ blank query →
  (faulty (supabase (searchVerses_query query)) →
     ∃ msg, state (searchVerses supabase st query)
            = {| verses := verses st; loading := false; error := Some msg |})
  ∧ error (state (searchVerses (connected t) st query)) = None
  ∧ (faulty (supabase (HomePage.handleTopicsSearch_query query)) →
       fst (HomePage.handleTopicsSearch supabase query) = fulfilled []).
Proof.
  intros Hq. split; [|split].
  - by apply searchVerses_faulty.
  - by rewrite (searchVerses_not_blank _ _ _ Hq), request_connected.
  - intros Hf. by rewrite handleTopicsSearch_faulty.
Qed.

Lemma search_fault_reported_by_hook_only_witness :
  ∃ msg, state (searchVerses (unreachable Example.fetch_failed) initial (lit "love"))
         = {| verses := []; loading := false; error := Some msg |}.
Proof.
  apply (search_fault_reported_by_hook_only
           (unreachable Example.fetch_failed) Example.corpus initial (lit "love")).
  - intros Hb. apply (bool_decide_pack _) in Hb. vm_compute in Hb. exact Hb.
  - simpl. by eexists.
Defined.

(** C2 as worded fails: with the store unreachable, [handleTopicsSearch]
    returns the same empty sequence as for a search without a match. *)
Lemma handleTopicsSearch_swallows_fault :
  faulty (unreachable Example.fetch_failed
            (HomePage.handleTopicsSearch_query (lit "love")))
  ∧ fst (HomePage.handleTopicsSearch (unreachable Example.fetch_failed) (lit "love"))
    = fulfilled []
  ∧ fst (HomePage.handleTopicsSearch (connected (H:=Example.engine) []) (lit "love"))
    = fulfilled [].
Proof. split; [simpl; by eexists|]. split; reflexivity. Qed.

(** C3, as amended. For every blank query (empty or white space only),
    [searchVerses] sends nothing to the store, empties the verses, leaves
    [loading] and [error] as they were and finishes normally: the query is
    dropped, not rejected. *)
Theorem blank_search_not_sent (supabase : Client) (st : State) (query : jsstring) :
  blank query →
  issued (searchVerses supabase st query) = []
  ∧ state (searchVerses supabase st query)
    = {| verses := []; loading := loading st; error := error st |}
  ∧ settled (searchVerses supabase st query) = fulfilled ().
Proof. intros Hq. by rewrite (searchVerses_blank _ _ _ Hq). Qed.

Lemma blank_search_not_sent_witness :
  issued (searchVerses (unreachable Example.fetch_failed) initial (lit "  ")) = []
  ∧ state (searchVerses (unreachable Example.fetch_failed) initial (lit "  "))
    = {| verses := []; loading := false; error := None |}
  ∧ settled (searchVerses (unreachable Example.fetch_failed) initial (lit "  "))
    = fulfilled ().
Proof.
  apply (blank_search_not_sent (unreachable Example.fetch_failed) initial (lit "  ")).
  apply (bool_decide_unpack _). vm_compute. exact I.
Defined.

(** C3 as worded fails: a query of three spaces is not rejected, the
    promise is fulfilled and no error is recorded. *)
Lemma blank_search_not_rejected :
  blank (lit "   ")
  ∧ settled (searchVerses (connected Example.corpus) initial (lit "   "))
    = fulfilled ()
  ∧ error (state (searchVerses (connected Example.corpus) initial (lit "   ")))
    = None
  ∧ ¬ ∃ reason,
        settled (searchVerses (connected Example.corpus) initial (lit "   "))
        = rejected reason.
Proof.
  split; [apply (bool_decide_unpack _); vm_compute; exact I|].
  split; [reflexivity|]. split; [reflexivity|].
  intros [reason Hr]. vm_compute in Hr. discriminate Hr.
Qed.

(** ** Reading a chapter *)

(** C4, as amended. [fetchChapter] checks nothing: for every book name and
    every chapter number, the non-positive ones too, it sends the store one
    query, filtering on that book and that chapter, and finishes normally;
    an error is recorded exactly when the store was faulty. *)
Theorem fetchChapter_validates_nothing
    (supabase : Client) (st : State) (book : jsstring) (chapter : Z) :
  issued (fetchChapter supabase st book chapter) = [chapter_query book chapter]
  ∧ settled (fetchChapter supabase st book chapter) = fulfilled ()
  ∧ (error (state (fetchChapter supabase st book chapter)) = None
     ↔ ¬ faulty (supabase (chapter_query book chapter))).
Proof.
  destruct (fetchChapter_issued supabase st book chapter) as [Hi Hs].
  split; [done|]. split; [done|]. apply fetchChapter_error.
Qed.

(** C4 as worded fails: chapter 0 of Genesis is asked of the store and
    answered with no verses and no error, and nothing is rejected. *)
Lemma fetchChapter_queries_chapter_zero :
  issued (fetchChapter (connected Example.corpus) initial (lit "Genesis") 0)
  = [chapter_query (lit "Genesis") 0]
  ∧ state (fetchChapter (connected Example.corpus) initial (lit "Genesis") 0)
    = {| verses := []; loading := false; error := None |}
  ∧ ¬ ∃ reason,
        settled (fetchChapter (connected Example.corpus) initial (lit "Genesis") 0)
        = rejected reason.
Proof.
  split; [reflexivity|]. split; [vm_compute; reflexivity|].
  intros [reason Hr]. vm_compute in Hr. discriminate Hr.
Qed.

(** C5. For every book and every chapter number of the column's type
    [INTEGER], the verses [fetchChapter] gets from a store that keeps the
    unique key come strictly ascending by verse number, and they are
    exactly the stored verses of that chapter. *)
Theorem fetchChapter_strictly_ascending `{Engine}
    (t : Table) (st : State) (book : jsstring) (chapter : Z) :
  unique_key t →
  INTEGER_range chapter →
  StronglySorted (λ a b, verse a < verse b)
    (verses (state (fetchChapter (connected t) st book chapter)))
  ∧ ∀ v, v ∈ verses (state (fetchChapter (connected t) st book chapter))
       ↔ ∃ r : Row, r ∈ t ∧ book_name r = book ∧ book_chapter r = chapter
                    ∧ v = transform r.
Proof.
  intros Ht Hc. rewrite fetchChapter_connected by done. cbn [verses]. split.
  - eapply StronglySorted_fmap; [|by apply select_chapter_ascending].
    by intros a b.
  - intros v. rewrite list_elem_of_fmap. split.
    + intros (c & -> & Hsel).
      apply elem_of_select_chapter in Hsel as (Hsel & Hb & Hch).
      apply list_elem_of_fmap in Hsel as (r & -> & Hr). by exists r.
    + intros (r & Hr & Hb & Hch & ->). exists (cols r). split; [done|].
      apply elem_of_select_chapter. split; [|done].
      by apply list_elem_of_fmap_2.
Qed.

Lemma fetchChapter_strictly_ascending_witness :
  StronglySorted (λ a b, verse a < verse b)
    (verses (state (fetchChapter (connected Example.corpus) initial
                      (lit "Genesis") 1))).
Proof.
  apply (fetchChapter_strictly_ascending Example.corpus initial (lit "Genesis") 1).
  - apply (bool_decide_unpack _). vm_compute. exact I.
  - unfold INTEGER_range. lia.
Defined.

(** C6. For every book and every chapter number of the column's type
    [INTEGER] of which the store holds no verse, [fetchChapter] ends with
    no verses and no error, and finishes normally; a faulty store instead
    leaves an error message, so the two outcomes differ. *)
Theorem fetchChapter_empty_is_not_a_fault `{Engine}
    (t : Table) (supabase : Client) (st : State) (book : jsstring) (chapter : Z) :
  Forall (λ r : Row, ¬ (book_name r = book ∧ book_chapter r = chapter)) t →
  INTEGER_range chapter →
  state (fetchChapter (connected t) st book chapter)
  = {| verses := []; loading := false; error := None |}
  ∧ settled (fetchChapter (connected t) st book chapter) = fulfilled ()
  ∧ (faulty (supabase (chapter_query book chapter)) →
       ∃ msg, error (state (fetchChapter supabase st book chapter)) = Some msg).
Proof.
  intros Hnone Hc. split; [|split].
  - rewrite fetchChapter_connected, select_chapter_empty; [done| |done].
    by apply Forall_forall.
  - apply fetchChapter_issued.
  - intros Hf. destruct (fetchChapter_faulty supabase st book chapter Hf)
      as [msg ->].
    by exists msg.
Qed.

Lemma fetchChapter_empty_is_not_a_fault_witness :
  state (fetchChapter (connected Example.corpus) initial (lit "Nonexistent") 1)
  = {| verses := []; loading := false; error := None |}.
Proof.
  apply (fetchChapter_empty_is_not_a_fault Example.corpus
           (unreachable Example.fetch_failed) initial (lit "Nonexistent") 1).
  - apply (bool_decide_unpack _). vm_compute. exact I.
  - unfold INTEGER_range. lia.
Defined.

(** ** The search index *)

(** C7. After any sequence of statements on the table the script created,
    every stored verse has as index entry [to_tsvector] of its current
    text: the trigger function rewrites the entry of each row a statement
    inserts or updates, as part of that statement. *)
Theorem index_entry_always_current `{Engine} (stmts : list Stmt) :
  index_consistent (run stmts)
  ∧ ∀ s, index_consistent (exec (run stmts) s).
Proof.
  assert (index_consistent (run stmts)) as Hrun.
  { unfold run. apply foldl_exec_index_consistent. by intros r ?%elem_of_nil. }
  split; [done|]. intros s. by apply exec_index_consistent.
Qed.

Lemma index_entry_always_current_witness : index_consistent Example.corpus.
Proof.
  apply (index_entry_always_current Example.bulk_load).
Defined.

(** ** Favorites *)

Import HomePage HomePageFacts.

(** C8. For every verse and every state of the favorites, two toggles of
    the verse in a row leave every key, that of the verse included, in the
    favorites set exactly if it was in it before; so with the handler
    alone, and so with the effect run after each call. *)
Theorem toggleFavorite_twice_restores_membership
    (st : Page) (v : Verse) (shown shown' : list Verse)
    (key : jsstring) :
  has (favorites (handleToggleFavorite (handleToggleFavorite st v) v)) key
  = has (favorites st) key
  ∧ has (favorites (toggle shown' (toggle shown st v) v)) key
    = has (favorites st) key.
Proof.
  assert (∀ st', has (favorites st') key
                 = (if bool_decide (key = verseKey v)
                    then negb (has (favorites st) key)
                    else has (favorites st) key) →
          has (favorites (handleToggleFavorite st' v)) key
          = has (favorites st) key) as Hsecond.
  { intros st' E. rewrite handleToggleFavorite_has, E.
    case_bool_decide; [apply negb_involutive|done]. }
  split; apply Hsecond.
  - apply handleToggleFavorite_has.
  - unfold toggle. rewrite favoritesEffect_favorites.
    apply handleToggleFavorite_has.
Qed.

(** C10. [handleToggleFavorite] keeps the two favorites collections in
    agreement: if the array of favorite verses has exactly one entry for
    every key of the favorites set and none for any other key, it has so
    after the toggle. Hence it has so after every toggle in every state
    the page reaches from its initial one, each click running the handler
    and then the effect that rebuilds the array. Nothing needs to be
    assumed of the verses. *)
Theorem favorites_agree_after_every_toggle
    (st : Page) (cs : list (list Verse * Verse)) (v : Verse) :
  (favoritesAgree st → favoritesAgree (handleToggleFavorite st v))
  ∧ favoritesAgree (clicks cs)
  ∧ favoritesAgree (handleToggleFavorite (clicks cs) v).
Proof.
  destruct (clicks_invariant cs) as [Hs Hagree].
  split; [apply handleToggleFavorite_agree|].
  split; [done|]. by apply handleToggleFavorite_agree.
Qed.

Lemma favorites_agree_after_every_toggle_witness :
  favoritesAgree (handleToggleFavorite mounted Example.john_3_16_verse).
Proof.
  apply (proj1 (favorites_agree_after_every_toggle mounted []
                  Example.john_3_16_verse)).
  intros key. reflexivity.
Defined.

(** ** Topics *)

(** C9, as amended. Adding a verse to a topic that has a verse of the same
    composite key leaves the topic as it is, and so does removing a verse
    from a topic that has none of that key; a second addition of the same
    verse changes nothing. Hence, as long as every topic is created from
    verses without a duplicate key, no topic ever holds two verses of the
    same key. *)
Theorem topic_verses_never_duplicated_by_adding
    (topicId : jsstring) (verse : Verse) (topic : Topic)
    (st : Page) (es : list TopicEvent) :
  (existsb (sameVerse verse) (verses topic) = true →
     addVerseTo topicId verse topic = topic)
  ∧ (existsb (sameVerse verse) (verses topic) = false →
       removeVerseFrom topicId verse topic = topic)
  ∧ handleAddVerseToTopic (handleAddVerseToTopic st topicId verse) topicId verse
    = handleAddVerseToTopic st topicId verse
  ∧ (Forall createsNoDuplicate es →
       Forall noDuplicateVerse (topics (foldl handle mounted es))).
Proof.
  split; [apply addVerseTo_present|].
  split; [apply removeVerseFrom_absent|]. split.
  - unfold handleAddVerseToTopic, setTopics. simpl. f_equal.
    rewrite <- list_fmap_compose. apply list_fmap_ext.
    intros i t _. apply addVerseTo_twice.
  - intros Hes. apply foldl_handle_noDuplicate; [done|]. constructor.
Qed.

Lemma topic_verses_never_duplicated_by_adding_witness :
  Forall noDuplicateVerse
    (topics (foldl handle mounted
       [CreateTopic 1700000000000
          {| data_title := lit "Love"; data_description := [];
             data_verses := [] |};
        AddVerseToTopic (lit "1700000000000") Example.john_3_16_verse;
        AddVerseToTopic (lit "1700000000000") Example.john_3_16_verse])).
Proof.
  apply (topic_verses_never_duplicated_by_adding
           [] Example.john_3_16_verse
           (mkTopic [] [] [] [] 0) mounted).
  apply (bool_decide_unpack _). vm_compute. exact I.
Defined.

(** C9 as worded fails: a topic created from a list that holds John 3:16
    twice holds two verses of the same composite key. *)
Lemma created_topic_holds_duplicate :
  topics (handleCreateTopic 1700000000000 mounted
            {| data_title := lit "Love"; data_description := [];
               data_verses := [Example.john_3_16_verse; Example.john_3_16_verse] |})
  = [ mkTopic (lit "1700000000000") (lit "Love") []
        [Example.john_3_16_verse; Example.john_3_16_verse] 1700000000000 ]
  ∧ ¬ Forall noDuplicateVerse
        (topics (handleCreateTopic 1700000000000 mounted
           {| data_title := lit "Love"; data_description := [];
              data_verses := [Example.john_3_16_verse; Example.john_3_16_verse] |})).
Proof.
  split; [vm_compute; reflexivity|].
  intros Hs. apply (bool_decide_pack _) in Hs. vm_compute in Hs. exact Hs.
Qed.

End Contract.

(** * Further properties of the code *)

(** ** Writes to [bible_books_and_verses] *)

Module Writes.
Import Js Ord OrdFacts ListFacts Pg PgFacts.

#[local] Existing Instance Example.engine.

Section engine.
Context `{Engine}.

Lemma natural_key_update_verse_text_tsv (r : Row) :
  natural_key (update_verse_text_tsv r) = natural_key r.
Proof. done. Qed.

Lemma natural_keys_triggered (rows : list Row) :
  (λ r : Row, natural_key r) <$> (update_verse_text_tsv <$> rows)
  = (λ r : Row, natural_key r) <$> rows.
Proof. rewrite <- list_fmap_compose. by apply list_fmap_ext. Qed.

Lemma exec_refused (t : Table) (s : Stmt) :
  ¬ unique_key (write s t) → exec t s = t.
Proof. intros Hn. unfold exec. by rewrite decide_False. Qed.

Lemma exec_done (t : Table) (s : Stmt) :
  unique_key (write s t) → exec t s = write s t.
Proof. intros Hu. unfold exec. by rewrite decide_True. Qed.

(** X1. An [INSERT] is all or nothing on the unique key: if one of its
    verses has the book, chapter and verse number of a stored verse, or two
    of its verses share them, the table stays as it was; otherwise its
    verses are appended, each with the index entry of its own text,
    whatever entry the statement supplied. *)
Theorem insert_all_or_nothing (t : Table) (rows : list Row) :
  unique_key t →
  ((∃ r : Row, r ∈ rows
               ∧ natural_key r ∈ (λ r : Row, natural_key r) <$> t) →
     exec t (INSERT rows) = t)
  ∧ (¬ NoDup ((λ r : Row, natural_key r) <$> rows) →
       exec t (INSERT rows) = t)
  ∧ (NoDup ((λ r : Row, natural_key r) <$> rows) →
     (∀ r : Row, r ∈ rows
                 → natural_key r ∉ (λ r : Row, natural_key r) <$> t) →
       exec t (INSERT rows)
       = t ++ ((λ r : Row,
                  mkRow r (Some (to_tsvector (verse_text r)))) <$> rows)).
Proof.
  intros Ht. split; [|split].
  - intros (r & Hr & Hk). apply exec_refused.
    unfold unique_key. simpl. rewrite fmap_app, natural_keys_triggered.
    rewrite NoDup_app. intros (_ & Hdisj & _).
    apply (Hdisj _ Hk). by apply (list_elem_of_fmap_2 (λ r : Row, natural_key r)).
  - intros Hdup. apply exec_refused.
    unfold unique_key. simpl. rewrite fmap_app, natural_keys_triggered.
    rewrite NoDup_app. by intros (_ & _ & Hrows).
  - intros Hrows Hfresh. rewrite exec_done; [done|].
    unfold unique_key. simpl. rewrite fmap_app, natural_keys_triggered.
    apply NoDup_app. split; [done|]. split; [|done].
    intros k Hk (r & -> & Hr)%list_elem_of_fmap. by apply (Hfresh r Hr).
Qed.

(** X2. An [UPDATE] that leaves book, chapter and verse number alone is
    never refused: every row it selects gets the assigned columns and the
    index entry of its new text, the other rows stay, and so do the number
    of rows and their order. *)
Theorem update_of_text_goes_through (t : Table) (set : Row → Row)
    (where_ : Row → bool) :
  unique_key t →
  (∀ r : Row, natural_key (set r) = natural_key r) →
  exec t (UPDATE set where_)
  = (λ r : Row,
       if where_ r
       then mkRow (set r) (Some (to_tsvector (verse_text (set r))))
       else r) <$> t.
Proof.
  intros Ht Hset. rewrite exec_done; [done|].
  unfold unique_key in *. simpl. rewrite <- list_fmap_compose.
  erewrite list_fmap_ext; [exact Ht|].
  intros i r _. simpl. destruct (where_ r); [|done]. apply Hset.
Qed.

End engine.

Lemma insert_all_or_nothing_witness :
  exec Example.corpus (INSERT [Example.verse_row "Genesis" 1 1 "In the beginning"])
  = Example.corpus.
Proof.
  refine (proj1 (insert_all_or_nothing Example.corpus
                   [Example.verse_row "Genesis" 1 1 "In the beginning"] _) _).
  - apply (bool_decide_unpack _). vm_compute. exact I.
  - exists (Example.verse_row "Genesis" 1 1 "In the beginning").
    split; [left|]. apply (bool_decide_unpack _). vm_compute. exact I.
Defined.

Lemma update_of_text_goes_through_witness :
  length (exec Example.corpus
            (UPDATE (λ r, mkRow (mkCols (book_name r) (book_chapter r)
                                   (verse_number r) (lit "..."))
                            None)
                    (λ r, bool_decide (book_name r = lit "John"))))
  = 5%nat.
Proof.
  rewrite (update_of_text_goes_through Example.corpus).
  - by rewrite length_fmap.
  - apply (bool_decide_unpack _). vm_compute. exact I.
  - intros r. reflexivity.
Defined.

End Writes.

(** ** Searching *)

Module Searches.
Import Js Ord OrdFacts ListFacts Pg PgFacts Supabase.
Import useBibleApi useBibleApiFacts.

#[local] Existing Instance Example.engine.

Section engine.
Context `{Engine}.

(** X3. After any history of statements, [search_verses] without a bound
    returns exactly the stored verses whose current text, indexed, matches
    the query, each ranked on the index entry of its current text: the
    search never works on the entry of an earlier text. *)
Theorem search_reads_current_text (stmts : list Stmt) (search_query : TEXT)
    (h : Hit) :
  ∃ hits,
    search_verses (run stmts) search_query None = Ok hits
    ∧ (h ∈ hits ↔
       ∃ v : Row,
         v ∈ run stmts
         ∧ ts_match (to_tsvector (verse_text v))
             (websearch_to_tsquery search_query) = true
         ∧ h = mkHit v (ts_rank (to_tsvector (verse_text v))
                          (websearch_to_tsquery search_query))).
Proof.
  eexists. split; [reflexivity|].
  rewrite merge_sort_Permutation, elem_of_hits.
  assert (index_consistent (run stmts)) as Hidx.
  { apply foldl_exec_index_consistent. by intros r ?%elem_of_nil. }
  split.
  - intros (v & tsv & Hv & Etsv & Hm & ->). exists v.
    rewrite (Hidx v Hv) in Etsv. injection Etsv as <-. done.
  - intros (v & Hv & Hm & ->). exists v, (to_tsvector (verse_text v)).
    split; [done|]. split; [by apply Hidx|done].
Qed.

(** X4. The bound of [search_verses] only cuts: without a bound every
    match is returned once; with a bound [n ≥ 0] the result is the first
    [n] rows of that list, so the result for a smaller bound is the
    beginning of the result for a larger one; a negative bound raises. *)
Theorem search_bound_keeps_first_rows (t : Table) (search_query : TEXT)
    (n m : Z) :
  ∃ all,
    search_verses t search_query None = Ok all
    ∧ all ≡ₚ omap (hit (websearch_to_tsquery search_query)) t
    ∧ (0 ≤ n → search_verses t search_query (Some n) = Ok (take (Z.to_nat n) all))
    ∧ (0 ≤ n ≤ m →
         ∃ more, search_verses t search_query (Some m) = Ok more
                 ∧ search_verses t search_query (Some n)
                   = Ok (take (Z.to_nat n) more))
    ∧ (n < 0 →
         search_verses t search_query (Some n)
         = Raise "LIMIT must not be negative").
Proof.
  eexists. split; [reflexivity|]. split; [apply merge_sort_Permutation|].
  split; [|split].
  - intros Hn. unfold search_verses. by apply LIMIT_Some.
  - intros [Hn Hm]. eexists. unfold search_verses.
    rewrite !LIMIT_Some by lia. split; [reflexivity|].
    rewrite take_take. do 2 f_equal. lia.
  - apply search_verses_negative_bound.
Qed.

Lemma passing_searchVerses_query query (r : Cols) :
  passing (searchVerses_query query) r
  ↔ ilike (verse_text r) (lit "%" ++ query ++ lit "%") = true.
Proof. unfold passing. simpl. by rewrite andb_true_r. Qed.

Lemma passing_handleTopicsSearch_query query (r : Cols) :
  passing (HomePage.handleTopicsSearch_query query) r
  ↔ ilike (verse_text r) (lit "%" ++ query ++ lit "%") = true.
Proof. unfold passing. simpl. by rewrite andb_true_r. Qed.

(** The rows a read returns are stored rows that pass its filters; with
    at most as many of them as the limit allows, none is left out. *)
Lemma select_within_limit (t : Table) (q : Query) (n : nat) :
  limit q = Some n →
  (length (filter (passing q) (cols <$> t)) ≤ n)%nat →
  select t q ≡ₚ filter (passing q) (cols <$> t).
Proof.
  intros E Hlen. unfold select. rewrite E.
  rewrite take_ge; [apply merge_sort_Permutation|].
  by rewrite merge_sort_Permutation.
Qed.

(** X5. With the store reachable and a query that is not blank,
    [searchVerses] shows at most 100 verses, ordered by book name, chapter
    and verse number; each is a stored verse whose text is [ILIKE] the
    pattern made of the query as typed between two percent signs; and if
    no more than 100 stored verses are, all of them are shown. *)
Theorem searchVerses_shows_first_hundred (t : Table) (st : State)
    (query : jsstring) :
  ¬ blank query →
  let vs := verses (state (searchVerses (connected t) st query)) in
  let matching :=
    filter (λ r : Cols, ilike (verse_text r) (lit "%" ++ query ++ lit "%") = true)
      (cols <$> t) in
  (length vs ≤ 100)%nat
  ∧ StronglySorted (le verse_order) vs
  ∧ (∀ v, v ∈ vs → ∃ r, r ∈ matching ∧ v = transform r)
  ∧ ((length matching ≤ 100)%nat → vs ≡ₚ transform <$> matching).
Proof.
  intros Hq vs matching.
  destruct (searchVerses_connected t st query Hq) as [Hlen Hsorted].
  split; [done|]. split; [done|].
  assert (vs = transform <$> select t (searchVerses_query query)) as Hvs.
  { unfold vs. by rewrite (searchVerses_not_blank _ _ _ Hq), request_connected. }
  assert (filter (passing (searchVerses_query query)) (cols <$> t) = matching)
    as Hm.
  { apply list_filter_iff. intros r. apply passing_searchVerses_query. }
  split.
  - intros v. rewrite Hvs. intros (r & -> & Hr)%list_elem_of_fmap.
    exists r. split; [|done]. rewrite <- Hm. by apply select_subseteq.
  - intros Hfew. rewrite Hvs. apply fmap_Permutation. rewrite <- Hm.
    apply (select_within_limit _ _ 100); [done|]. by rewrite Hm.
Qed.

(** X6. [handleTopicsSearch] never rejects and sends the store one query
    whatever the input, a blank one included; faced with a faulty store it
    returns the empty array, and with a reachable one at most 50 verses,
    each a stored verse whose text is [ILIKE] the pattern. *)
Theorem handleTopicsSearch_always_answers (supabase : Client) (t : Table)
    (query : jsstring) :
  (∃ vs, HomePage.handleTopicsSearch supabase query
         = (fulfilled vs, [HomePage.handleTopicsSearch_query query]))
  ∧ (faulty (supabase (HomePage.handleTopicsSearch_query query)) →
       (HomePage.handleTopicsSearch supabase query).1 = fulfilled [])
  ∧ ∃ vs, (HomePage.handleTopicsSearch (connected t) query).1 = fulfilled vs
          ∧ (length vs ≤ 50)%nat
          ∧ ∀ v, v ∈ vs →
              ∃ r : Row, r ∈ t
                ∧ ilike (verse_text r) (lit "%" ++ query ++ lit "%") = true
                ∧ v = transform r.
Proof.
  split; [|split].
  - unfold HomePage.handleTopicsSearch, HomePage.handleTopicsSearch_body.
    unfold tryCatch, await, mbind, Async_bind. simpl.
    destruct (supabase _) as [r|err]; [|by eexists].
    destruct (Supabase.error r); by eexists.
  - intros Hf. by rewrite handleTopicsSearch_faulty.
  - exists (transform <$> select t (HomePage.handleTopicsSearch_query query)).
    split; [done|]. split.
    + rewrite length_fmap. by apply select_length.
    + intros v (c & -> & Hc)%list_elem_of_fmap.
      apply select_subseteq, list_elem_of_filter in Hc as [Hp Hc].
      apply list_elem_of_fmap in Hc as (r & -> & Hr).
      exists r. split; [done|]. split; [|done].
      by apply passing_handleTopicsSearch_query.
Qed.

Lemma handleFetchChapter_connected (t : Table) (book : jsstring) (chapter : Z) :
  INTEGER_range chapter →
  (HomePage.handleFetchChapter (connected t) book chapter).1
  = fulfilled (transform <$> select t (chapter_query book chapter)).
Proof.
  intros Hc.
  assert (connected t (chapter_query book chapter)
          = resolves {| data := Some (select t (chapter_query book chapter));
                        Supabase.error := None |}) as Hans.
  { apply connected_answers. rewrite out_of_range_chapter_query.
    by destruct (decide _). }
  unfold HomePage.handleFetchChapter, HomePage.handleFetchChapter_body.
  unfold tryCatch, await, mbind, Async_bind. simpl. by rewrite Hans.
Qed.

(** X7. [handleFetchChapter] never rejects and sends one query; a faulty
    store gives the empty array, the same as a chapter without verses. A
    reachable store gives, for a chapter number of the column's type
    [INTEGER], the verses the hook's [fetchChapter] would show; any other
    chapter number it refuses, and then the page function gives the empty
    array while the hook keeps the verses it had and shows its fallback
    message. When the store keeps the unique key the verses come strictly
    ascending by verse number. *)
Theorem handleFetchChapter_always_answers (supabase : Client) (t : Table)
    (st : State) (book : jsstring) (chapter : Z) :
  (∃ vs, HomePage.handleFetchChapter supabase book chapter
         = (fulfilled vs, [chapter_query book chapter]))
  ∧ (faulty (supabase (chapter_query book chapter)) →
       (HomePage.handleFetchChapter supabase book chapter).1 = fulfilled [])
  ∧ (INTEGER_range chapter →
       (HomePage.handleFetchChapter (connected t) book chapter).1
       = fulfilled (verses (state (fetchChapter (connected t) st book chapter))))
  ∧ (¬ INTEGER_range chapter →
       (HomePage.handleFetchChapter (connected t) book chapter).1 = fulfilled []
       ∧ state (fetchChapter (connected t) st book chapter)
         = {| verses := verses st; loading := false;
              error := Some (lit "Failed to fetch chapter") |})
  ∧ (unique_key t →
       ∃ vs, (HomePage.handleFetchChapter (connected t) book chapter).1
             = fulfilled vs
             ∧ StronglySorted (λ a b, verse a < verse b) vs).
Proof.
  assert (∀ supabase : Client,
            faulty (supabase (chapter_query book chapter)) →
            (HomePage.handleFetchChapter supabase book chapter).1 = fulfilled [])
    as Hfaulty.
  { intros s.
    unfold faulty, HomePage.handleFetchChapter, HomePage.handleFetchChapter_body.
    unfold tryCatch, await, mbind, Async_bind. simpl.
    destruct (s _) as [r|err]; [|done]. by intros [err ->]. }
  assert (¬ INTEGER_range chapter →
          (HomePage.handleFetchChapter (connected t) book chapter).1
          = fulfilled []) as Hrefused.
  { intros Hc. apply Hfaulty, connected_faulty.
    rewrite out_of_range_chapter_query. by destruct (decide _). }
  split; [|split; [|split; [|split]]].
  - unfold HomePage.handleFetchChapter, HomePage.handleFetchChapter_body.
    unfold tryCatch, await, mbind, Async_bind. simpl.
    destruct (supabase _) as [r|err]; [|by eexists].
    destruct (Supabase.error r); by eexists.
  - apply Hfaulty.
  - intros Hc.
    by rewrite handleFetchChapter_connected, fetchChapter_connected.
  - intros Hc. split; [by apply Hrefused|].
    by rewrite fetchChapter_refused.
  - intros Ht. destruct (decide (INTEGER_range chapter)) as [Hc|Hc].
    + exists (transform <$> select t (chapter_query book chapter)).
      split; [by apply handleFetchChapter_connected|].
      eapply StronglySorted_fmap; [|by apply select_chapter_ascending].
      by intros a b.
    + exists []. split; [by apply Hrefused|]. constructor.
Qed.

End engine.

Lemma search_bound_keeps_first_rows_witness :
  ∃ more, search_verses Example.corpus (lit "God") (Some 4) = Ok more
          ∧ search_verses Example.corpus (lit "God") (Some 2)
            = Ok (take 2 more).
Proof.
  destruct (search_bound_keeps_first_rows Example.corpus (lit "God") 2 4)
    as (all & _ & _ & _ & Hprefix & _).
  apply Hprefix. lia.
Defined.

Lemma searchVerses_shows_first_hundred_witness :
  (length (verses (state (searchVerses (connected Example.corpus) initial
                            (lit "god")))) ≤ 100)%nat.
Proof.
  refine (proj1 (searchVerses_shows_first_hundred Example.corpus initial
                   (lit "god") _)).
  intros Hb. apply (bool_decide_pack _) in Hb. vm_compute in Hb. exact Hb.
Defined.

Lemma handleTopicsSearch_always_answers_witness :
  (HomePage.handleTopicsSearch (unreachable Example.fetch_failed) (lit "love")).1
  = fulfilled [].
Proof.
  refine (proj1 (proj2 (handleTopicsSearch_always_answers
                          (unreachable Example.fetch_failed) Example.corpus
                          (lit "love"))) _).
  simpl. by eexists.
Defined.

Lemma handleFetchChapter_always_answers_witness :
  ∃ vs, (HomePage.handleFetchChapter (connected Example.corpus)
           (lit "Genesis") 1).1 = fulfilled vs
        ∧ StronglySorted (λ a b, verse a < verse b) vs.
Proof.
  refine (proj2 (proj2 (proj2 (proj2 (handleFetchChapter_always_answers
            (unreachable Example.fetch_failed) Example.corpus initial
            (lit "Genesis") 1)))) _).
  apply (bool_decide_unpack _). vm_compute. exact I.
Defined.

End Searches.

(** ** The helper views *)

Module Views.
Import Js Ord OrdFacts ListFacts Pg PgFacts.

#[local] Existing Instance Example.engine.

Lemma SUM_Permutation (l k : list Z) : l ≡ₚ k → SUM l = SUM k.
Proof. unfold SUM. induction 1; simpl; lia. Qed.

Lemma SUM_add {K} (f g : K → Z) (ks : list K) :
  SUM ((λ k, f k + g k) <$> ks) = SUM (f <$> ks) + SUM (g <$> ks).
Proof.
  induction ks as [|k ks IH]; [done|].
  rewrite !fmap_cons. unfold SUM in *. cbn [foldr]. lia.
Qed.

Lemma SUM_indicator {K} `{EqDecision K} (x : K) (ks : list K) :
  NoDup ks →
  SUM ((λ k, if decide (x = k) then 1 else 0) <$> ks)
  = if decide (x ∈ ks) then 1 else 0.
Proof.
  induction 1 as [|k ks Hk Hks IH]; [done|].
  rewrite fmap_cons. unfold SUM in *. cbn [foldr]. rewrite IH.
  destruct (decide (x = k)) as [->|Hne].
  - rewrite decide_False by done. rewrite decide_True by left. done.
  - destruct (decide (x ∈ ks)) as [Hin|Hin].
    + rewrite decide_True by (by right). done.
    + rewrite decide_False; [done|]. by intros [?|?]%elem_of_cons.
Qed.

(** Rows counted key by key are counted once each. *)
Lemma COUNT_by_key {K} `{EqDecision K} (key : Cols → K) (ks : list K)
    (rows : list Cols) :
  NoDup ks →
  SUM ((λ k, COUNT (filter (λ r, key r = k) rows)) <$> ks)
  = COUNT (filter (λ r, key r ∈ ks) rows).
Proof.
  intros Hks. induction rows as [|x rows IH].
  - clear Hks. induction ks as [|k ks IHks]; [done|].
    rewrite fmap_cons. unfold SUM in *. cbn [foldr]. by rewrite IHks.
  - assert ((λ k, COUNT (filter (λ r, key r = k) (x :: rows))) <$> ks
            = (λ k, (if decide (key x = k) then 1 else 0)
                    + COUNT (filter (λ r, key r = k) rows)) <$> ks) as ->.
    { apply list_fmap_ext. intros i k _. unfold COUNT. rewrite filter_cons.
      destruct (decide (key x = k)); cbn [length]; lia. }
    rewrite SUM_add, IH, SUM_indicator by done.
    unfold COUNT. rewrite filter_cons.
    destruct (decide (key x ∈ ks)); cbn [length]; lia.
Qed.

Section groups.
Context {K : Type} `{EqDecision K} (key : Cols → K) (rows : list Cols).

Lemma group_by_keys : (group_by key rows).*1 = remove_dups (key <$> rows).
Proof.
  unfold group_by. rewrite <- list_fmap_compose. simpl. apply list_fmap_id.
Qed.

Lemma elem_of_group_by g :
  g ∈ group_by key rows
  ↔ g.1 ∈ key <$> rows ∧ g.2 = filter (λ r, key r = g.1) rows.
Proof.
  unfold group_by. rewrite list_elem_of_fmap. split.
  - intros (k & -> & Hk). rewrite elem_of_remove_dups in Hk. by split.
  - intros [Hk Hg]. exists g.1. split; [|by apply elem_of_remove_dups].
    destruct g as [k l]. simpl in *. by subst.
Qed.

Lemma group_by_COUNT :
  SUM ((λ g, COUNT g.2) <$> group_by key rows) = COUNT rows.
Proof.
  unfold group_by. rewrite <- list_fmap_compose.
  change (SUM ((λ k, COUNT (filter (λ r, key r = k) rows))
                 <$> remove_dups (key <$> rows)) = COUNT rows).
  rewrite (COUNT_by_key key) by apply NoDup_remove_dups.
  f_equal. apply filter_all. rewrite Forall_forall. intros r Hr.
  apply elem_of_remove_dups. by apply list_elem_of_fmap_2.
Qed.

End groups.

(** The smallest and the largest of a list that is not empty. *)
Lemma MIN_least (zs : list Z) :
  zs ≠ [] → ∃ m, MIN zs = Some m ∧ m ∈ zs ∧ ∀ z, z ∈ zs → m ≤ z.
Proof.
  destruct zs as [|z zs]; [done|]. intros _. exists (foldr Z.min z zs).
  split; [done|]. revert z. induction zs as [|y zs IH]; intros z; simpl.
  - split; [left|]. intros ? ->%list_elem_of_singleton. lia.
  - destruct (IH z) as [Hin Hle]. split.
    + destruct (Z.min_spec y (foldr Z.min z zs)) as [[_ ->]|[_ ->]].
      * right. left.
      * apply elem_of_cons in Hin as [->|Hin]; [left|right; by right].
    + intros w Hw. assert (foldr Z.min z zs ≤ w ∨ w = y) as [?| ->]; [|lia..].
      apply elem_of_cons in Hw as [->|[->|Hw]%elem_of_cons]; auto.
      * left. apply Hle. left.
      * left. apply Hle. by right.
Qed.

Lemma MAX_greatest (zs : list Z) :
  zs ≠ [] → ∃ m, MAX zs = Some m ∧ m ∈ zs ∧ ∀ z, z ∈ zs → z ≤ m.
Proof.
  destruct zs as [|z zs]; [done|]. intros _. exists (foldr Z.max z zs).
  split; [done|]. revert z. induction zs as [|y zs IH]; intros z; simpl.
  - split; [left|]. intros ? ->%list_elem_of_singleton. lia.
  - destruct (IH z) as [Hin Hle]. split.
    + destruct (Z.max_spec y (foldr Z.max z zs)) as [[_ ->]|[_ ->]].
      * apply elem_of_cons in Hin as [->|Hin]; [left|right; by right].
      * right. left.
    + intros w Hw. assert (w ≤ foldr Z.max z zs ∨ w = y) as [?| ->]; [|lia..].
      apply elem_of_cons in Hw as [->|[->|Hw]%elem_of_cons]; auto.
      * left. apply Hle. left.
      * left. apply Hle. by right.
Qed.

#[export] Instance nulls_last_order {A} (cmp : A → A → comparison)
  `{!CmpOrder cmp} : CmpOrder (nulls_last cmp).
Proof.
  split.
  - intros [a|] [b|]; simpl; try done. apply (cmp_antisym cmp).
  - intros [a|] [b|] [c|]; simpl; try done. apply (cmp_lt_trans cmp).
  - intros [a|] [b|] [c|]; simpl; try done. apply (cmp_eq_compat cmp).
Qed.

Lemma StronglySorted_fmap_inv {A B} (f : A → B) (R : relation B) (l : list A) :
  StronglySorted R (f <$> l) → StronglySorted (λ x y, R (f x) (f y)) l.
Proof.
  induction l as [|x l IH]; [constructor|].
  rewrite fmap_cons. intros [Hl Hx]%StronglySorted_inv.
  constructor; [by apply IH|]. rewrite Forall_fmap in Hx. exact Hx.
Qed.

Lemma StronglySorted_impl_in {A} (R R' : relation A) (l : list A) :
  (∀ x y, x ∈ l → y ∈ l → R x y → R' x y) →
  StronglySorted R l → StronglySorted R' l.
Proof.
  intros Himpl Hs. induction Hs as [|x l Hl IH Hx]; [constructor|].
  constructor.
  - apply IH. intros a b Ha Hb. apply Himpl; by right.
  - rewrite Forall_forall in Hx |- *. intros y Hy.
    apply Himpl; [left|by right|by apply Hx].
Qed.

Section engine.
Context `{Engine}.

(** The groups of [book_verse_counts], in the order of the view. *)
Lemma book_verse_counts_groups (t : Table) :
  ∃ ordered,
    ordered ≡ₚ group_by book_name (cols <$> t)
    ∧ StronglySorted
        (le (lex (on (λ g : TEXT * list Cols, MIN (book_chapter <$> g.2))
                     (nulls_last Z.compare))
                 (on fst text_cmp))) ordered
    ∧ book_verse_counts t
      = (λ g : TEXT * list Cols,
           {| bvc_book_name := g.1; bvc_total_verses := COUNT g.2;
              bvc_chapter_count := MAX (book_chapter <$> g.2) |}) <$> ordered.
Proof.
  exists (merge_sort
            (le (lex (on (λ g : TEXT * list Cols, MIN (book_chapter <$> g.2))
                         (nulls_last Z.compare))
                     (on fst text_cmp)))
            (group_by book_name (cols <$> t))).
  split; [apply merge_sort_Permutation|]. split; [|reflexivity].
  assert (CmpOrder
            (lex (on (λ g : TEXT * list Cols, MIN (book_chapter <$> g.2))
                     (nulls_last Z.compare))
                 (on (fst : TEXT * list Cols → TEXT) text_cmp))) as Hord.
  { apply lex_order; apply on_order;
      [apply nulls_last_order, Z_compare_order | apply text_cmp_order]. }
  apply StronglySorted_merge_sort;
    [exact (@le_trans _ _ Hord) | exact (@le_total _ _ Hord)].
Qed.

Lemma stored_book (t : Table) (b : TEXT) :
  b ∈ book_name <$> (cols <$> t) ↔ ∃ r : Row, r ∈ t ∧ book_name r = b.
Proof.
  rewrite <- list_fmap_compose, list_elem_of_fmap. simpl.
  split; intros (r & ? & ?); by exists r.
Qed.

(** X8. [book_verse_counts] has one row for every book with a stored
    verse and for no other; the row counts the stored verses of the book,
    at least one, and its [chapter_count] is the largest chapter number
    among them; the counts of all rows add up to the number of stored
    verses. *)
Theorem book_verse_counts_counts_every_verse (t : Table) :
  NoDup (bvc_book_name <$> book_verse_counts t)
  ∧ (∀ b, b ∈ bvc_book_name <$> book_verse_counts t
          ↔ ∃ r : Row, r ∈ t ∧ book_name r = b)
  ∧ SUM (bvc_total_verses <$> book_verse_counts t) = Z.of_nat (length t)
  ∧ ∀ row, row ∈ book_verse_counts t →
      bvc_total_verses row
      = COUNT (filter (λ r : Cols, book_name r = bvc_book_name row) (cols <$> t))
      ∧ 1 ≤ bvc_total_verses row
      ∧ ∃ m, bvc_chapter_count row = Some m
             ∧ (∃ r : Row, r ∈ t ∧ book_name r = bvc_book_name row
                           ∧ book_chapter r = m)
             ∧ ∀ r : Row, r ∈ t → book_name r = bvc_book_name row
                          → book_chapter r ≤ m.
Proof.
  destruct (book_verse_counts_groups t) as (ordered & Hperm & _ & ->).
  assert (bvc_book_name
            <$> ((λ g : TEXT * list Cols,
                    {| bvc_book_name := g.1; bvc_total_verses := COUNT g.2;
                       bvc_chapter_count := MAX (book_chapter <$> g.2) |})
                   <$> ordered)
          ≡ₚ remove_dups (book_name <$> (cols <$> t))) as Hnames.
  { rewrite <- list_fmap_compose, <- group_by_keys, <- Hperm. done. }
  split; [|split; [|split]].
  - rewrite Hnames. apply NoDup_remove_dups.
  - intros b. rewrite Hnames, elem_of_remove_dups. apply stored_book.
  - rewrite <- list_fmap_compose.
    rewrite (SUM_Permutation _ ((λ g, COUNT g.2)
                                  <$> group_by book_name (cols <$> t))).
    + rewrite group_by_COUNT. unfold COUNT. by rewrite length_fmap.
    + by rewrite Hperm.
  - intros row (g & -> & Hg)%list_elem_of_fmap. simpl.
    rewrite Hperm in Hg. apply elem_of_group_by in Hg as [Hk Hrows].
    apply stored_book in Hk as (r0 & Hr0 & Hb0).
    assert (cols r0 ∈ g.2) as Hin.
    { rewrite Hrows. apply list_elem_of_filter.
      split; [done|]. by apply list_elem_of_fmap_2. }
    split; [by rewrite Hrows at 1|]. split.
    { unfold COUNT. destruct (g.2); [by apply elem_of_nil in Hin|].
      simpl. lia. }
    destruct (MAX_greatest (book_chapter <$> g.2)) as (m & Hm & Hmin & Hmax).
    { destruct (g.2); [by apply elem_of_nil in Hin|done]. }
    exists m. split; [done|]. split.
    + apply list_elem_of_fmap in Hmin as (c & -> & Hc).
      rewrite Hrows in Hc. apply list_elem_of_filter in Hc as [Hcb Hc].
      apply list_elem_of_fmap in Hc as (r & -> & Hr). by exists r.
    + intros r Hr Hb. apply Hmax. apply list_elem_of_fmap.
      exists (cols r). split; [done|]. rewrite Hrows.
      apply list_elem_of_filter. split; [done|]. by apply list_elem_of_fmap_2.
Qed.

(** X9. The rows of [book_verse_counts] come by the smallest stored
    chapter number of the book, then by book name as text; so when every
    stored book has a verse in chapter 1 and none in a chapter below, the
    view lists the books by name, not in their canonical sequence. *)
Theorem book_verse_counts_ordered_by_name (t : Table) :
  StronglySorted
    (le (lex (on (λ b, MIN (book_chapter
                              <$> filter (λ r : Cols, book_name r = b)
                                    (cols <$> t)))
                 (nulls_last Z.compare))
             text_cmp))
    (bvc_book_name <$> book_verse_counts t)
  ∧ (Forall (λ r : Row,
               1 ≤ book_chapter r
               ∧ Exists (λ r1 : Row, book_name r1 = book_name r
                                     ∧ book_chapter r1 = 1) t) t →
     StronglySorted (le text_cmp) (bvc_book_name <$> book_verse_counts t)).
Proof.
  destruct (book_verse_counts_groups t) as (ordered & Hperm & Hsorted & ->).
  rewrite <- list_fmap_compose.
  change (_ ∘ _) with (fst : TEXT * list Cols → TEXT).
  assert (ordered
          = (λ b, (b, filter (λ r : Cols, book_name r = b) (cols <$> t)))
              <$> ordered.*1) as Hshape.
  { rewrite <- list_fmap_compose. rewrite <- (list_fmap_id ordered) at 1.
    apply list_fmap_ext. intros i g Hg%list_elem_of_lookup_2. simpl.
    rewrite Hperm in Hg. apply elem_of_group_by in Hg as [_ Hrows].
    rewrite <- Hrows. by destruct g. }
  assert (StronglySorted
            (le (lex (on (λ b, MIN (book_chapter
                                      <$> filter (λ r : Cols, book_name r = b)
                                            (cols <$> t)))
                         (nulls_last Z.compare))
                     text_cmp)) ordered.*1) as Hnames.
  { rewrite Hshape in Hsorted. apply StronglySorted_fmap_inv in Hsorted.
    exact Hsorted. }
  split; [done|]. intros Hall.
  assert (∀ r : Row, r ∈ t →
            1 ≤ book_chapter r
            ∧ ∃ r1 : Row, r1 ∈ t ∧ book_name r1 = book_name r
                          ∧ book_chapter r1 = 1) as Hone.
  { rewrite Forall_forall in Hall. intros r Hr.
    destruct (Hall r Hr) as [Hle Hex]. split; [done|].
    by apply Exists_exists in Hex. }
  assert (∀ b, b ∈ ordered.*1 →
            MIN (book_chapter <$> filter (λ r : Cols, book_name r = b)
                                    (cols <$> t)) = Some 1) as Hmin.
  { intros b Hb. rewrite Hperm, group_by_keys, elem_of_remove_dups in Hb.
    apply stored_book in Hb as (r & Hr & Hrb).
    destruct (Hone r Hr) as (_ & r1 & Hr1 & Hb1 & Hc1).
    destruct (MIN_least (book_chapter
                           <$> filter (λ r : Cols, book_name r = b) (cols <$> t)))
      as (m & -> & Hin & Hle).
    { intros Hnil. apply fmap_nil_inv in Hnil.
      assert (cols r ∈ filter (λ r : Cols, book_name r = b) (cols <$> t)) as Hc.
      { apply list_elem_of_filter. split; [done|]. by apply list_elem_of_fmap_2. }
      rewrite Hnil in Hc. by apply elem_of_nil in Hc. }
    f_equal. apply Z.le_antisymm.
    - apply Hle. apply list_elem_of_fmap. exists (cols r1). split; [done|].
      apply list_elem_of_filter. split; [congruence|].
      by apply list_elem_of_fmap_2.
    - apply list_elem_of_fmap in Hin as (c & -> & Hc).
      apply list_elem_of_filter in Hc as [_ Hc].
      apply list_elem_of_fmap in Hc as (r' & -> & Hr'). by apply Hone. }
  eapply StronglySorted_impl_in; [|exact Hnames].
  intros a b Ha Hb. unfold le, lex, on.
  by rewrite (Hmin a Ha), (Hmin b Hb).
Qed.

(** A row of [book_verse_counts] is made from the stored verses of its
    book. *)
Lemma elem_of_book_verse_counts (t : Table) row :
  row ∈ book_verse_counts t →
  bvc_book_name row ∈ book_name <$> (cols <$> t)
  ∧ bvc_total_verses row
    = COUNT (filter (λ r : Cols, book_name r = bvc_book_name row) (cols <$> t)).
Proof.
  destruct (book_verse_counts_groups t) as (ordered & Hperm & _ & ->).
  intros (g & -> & Hg)%list_elem_of_fmap. simpl.
  rewrite Hperm in Hg. apply elem_of_group_by in Hg as [Hk Hrows].
  split; [done|]. by rewrite Hrows at 1.
Qed.

(** The groups of [chapter_verse_counts], in the order of the view. *)
Lemma chapter_verse_counts_groups (t : Table) :
  ∃ ordered,
    ordered ≡ₚ group_by (λ r, (book_name r, book_chapter r)) (cols <$> t)
    ∧ StronglySorted
        (le (lex (on (λ g : TEXT * INTEGER * list Cols, g.1.1) text_cmp)
                 (on (λ g : TEXT * INTEGER * list Cols, g.1.2) Z.compare)))
        ordered
    ∧ chapter_verse_counts t
      = (λ g : TEXT * INTEGER * list Cols,
           {| cvc_book_name := g.1.1; cvc_book_chapter := g.1.2;
              cvc_verse_count := COUNT g.2 |}) <$> ordered.
Proof.
  exists (merge_sort
            (le (lex (on (λ g : TEXT * INTEGER * list Cols, g.1.1) text_cmp)
                     (on (λ g : TEXT * INTEGER * list Cols, g.1.2) Z.compare)))
            (group_by (λ r, (book_name r, book_chapter r)) (cols <$> t))).
  split; [apply merge_sort_Permutation|]. split; [|reflexivity].
  assert (CmpOrder
            (lex (on (λ g : TEXT * INTEGER * list Cols, g.1.1) text_cmp)
                 (on (λ g : TEXT * INTEGER * list Cols, g.1.2) Z.compare)))
    as Hord.
  { apply lex_order; apply on_order;
      [apply text_cmp_order | apply Z_compare_order]. }
  apply StronglySorted_merge_sort;
    [exact (@le_trans _ _ Hord) | exact (@le_total _ _ Hord)].
Qed.

Lemma stored_chapter (t : Table) (b : TEXT) (c : INTEGER) :
  (b, c) ∈ (λ r, (book_name r, book_chapter r)) <$> (cols <$> t)
  ↔ ∃ r : Row, r ∈ t ∧ book_name r = b ∧ book_chapter r = c.
Proof.
  rewrite <- list_fmap_compose, list_elem_of_fmap. simpl. split.
  - intros (r & [= -> ->] & Hr). by exists r.
  - intros (r & Hr & <- & <-). by exists r.
Qed.

(** X10. [chapter_verse_counts] has one row for every book and chapter
    with a stored verse and for no other; the row counts the stored verses
    of that chapter, at least one; the counts add up to the number of
    stored verses; and the rows come by book name as text, then by chapter
    number. *)
Theorem chapter_verse_counts_counts_every_verse (t : Table) :
  NoDup ((λ row, (cvc_book_name row, cvc_book_chapter row))
           <$> chapter_verse_counts t)
  ∧ (∀ b c, (b, c) ∈ (λ row, (cvc_book_name row, cvc_book_chapter row))
                        <$> chapter_verse_counts t
            ↔ ∃ r : Row, r ∈ t ∧ book_name r = b ∧ book_chapter r = c)
  ∧ SUM (cvc_verse_count <$> chapter_verse_counts t) = Z.of_nat (length t)
  ∧ (∀ row, row ∈ chapter_verse_counts t →
       cvc_verse_count row
       = COUNT (filter (λ r : Cols, book_name r = cvc_book_name row
                                     ∧ book_chapter r = cvc_book_chapter row)
                  (cols <$> t))
       ∧ 1 ≤ cvc_verse_count row)
  ∧ StronglySorted
      (le (lex (on cvc_book_name text_cmp) (on cvc_book_chapter Z.compare)))
      (chapter_verse_counts t).
Proof.
  destruct (chapter_verse_counts_groups t) as (ordered & Hperm & Hsorted & ->).
  assert ((λ row, (cvc_book_name row, cvc_book_chapter row))
            <$> ((λ g : TEXT * INTEGER * list Cols,
                    {| cvc_book_name := g.1.1; cvc_book_chapter := g.1.2;
                       cvc_verse_count := COUNT g.2 |}) <$> ordered)
          ≡ₚ remove_dups ((λ r, (book_name r, book_chapter r))
                            <$> (cols <$> t))) as Hkeys.
  { rewrite <- list_fmap_compose, <- group_by_keys, <- Hperm.
    erewrite list_fmap_ext; [reflexivity|]. by intros i [[b c] l] _. }
  split; [|split; [|split; [|split]]].
  - rewrite Hkeys. apply NoDup_remove_dups.
  - intros b c. rewrite Hkeys, elem_of_remove_dups. apply stored_chapter.
  - rewrite <- list_fmap_compose.
    rewrite (SUM_Permutation _
               ((λ g, COUNT g.2)
                  <$> group_by (λ r, (book_name r, book_chapter r)) (cols <$> t))).
    + rewrite group_by_COUNT. unfold COUNT. by rewrite length_fmap.
    + by rewrite Hperm.
  - intros row (g & -> & Hg)%list_elem_of_fmap. simpl.
    rewrite Hperm in Hg. apply elem_of_group_by in Hg as [Hk Hrows].
    assert (g.2 = filter (λ r : Cols, book_name r = g.1.1
                                      ∧ book_chapter r = g.1.2) (cols <$> t))
      as Hrows'.
    { rewrite Hrows. apply list_filter_iff. intros r.
      destruct g as [[b c] l]. simpl. split; [by intros [= -> ->]|].
      by intros [-> ->]. }
    split; [by rewrite Hrows' at 1|].
    apply list_elem_of_fmap in Hk as (r0 & Hk0 & Hr0).
    assert (r0 ∈ g.2) as Hin.
    { rewrite Hrows. apply list_elem_of_filter. by split. }
    unfold COUNT. destruct (g.2); [by apply elem_of_nil in Hin|].
    simpl. lia.
  - eapply StronglySorted_fmap; [|exact Hsorted].
    intros g1 g2 Hg. exact Hg.
Qed.

(** X11. The two views agree: for every book, the verse counts of its
    chapters in [chapter_verse_counts] add up to its [total_verses] in
    [book_verse_counts]. *)
Theorem views_agree_on_totals (t : Table) row :
  row ∈ book_verse_counts t →
  SUM (cvc_verse_count
         <$> filter (λ c, cvc_book_name c = bvc_book_name row)
               (chapter_verse_counts t))
  = bvc_total_verses row.
Proof.
  intros [Hb ->]%elem_of_book_verse_counts.
  destruct (chapter_verse_counts_groups t) as (ordered & Hperm & _ & ->).
  set (b := bvc_book_name row). set (rows := cols <$> t) in *.
  rewrite filter_fmap, <- list_fmap_compose. simpl.
  rewrite (SUM_Permutation _
     ((λ g : TEXT * INTEGER * list Cols, COUNT g.2)
        <$> filter (λ g : TEXT * INTEGER * list Cols, g.1.1 = b)
              (group_by (λ r, (book_name r, book_chapter r)) rows)));
    [|by rewrite Hperm].
  unfold group_by. rewrite filter_fmap, <- list_fmap_compose. simpl.
  change (SUM ((λ k : TEXT * INTEGER,
                  COUNT (filter (λ r, (book_name r, book_chapter r) = k) rows))
                 <$> filter (λ k : TEXT * INTEGER, k.1 = b)
                       (remove_dups ((λ r, (book_name r, book_chapter r))
                                       <$> rows)))
          = COUNT (filter (λ r : Cols, book_name r = b) rows)).
  rewrite (COUNT_by_key (λ r, (book_name r, book_chapter r)))
    by apply NoDup_filter, NoDup_remove_dups.
  f_equal. apply filter_ext_in. intros r Hr.
  rewrite list_elem_of_filter, elem_of_remove_dups. simpl. split; [by intros []|].
  intros Hrb. split; [done|].
  by apply (list_elem_of_fmap_2 (λ r, (book_name r, book_chapter r))).
Qed.

End engine.

Example chapter_verse_counts_corpus :
  (λ row, (cvc_book_name row, cvc_book_chapter row, cvc_verse_count row))
    <$> chapter_verse_counts Example.corpus
  = [(lit "Exodus", 2, 1); (lit "Exodus", 20, 1); (lit "Genesis", 1, 2);
     (lit "John", 3, 1)].
Proof. vm_compute. reflexivity. Qed.

Lemma book_verse_counts_counts_every_verse_witness :
  ∃ m, Some 20 = Some m
       ∧ (∃ r : Row, r ∈ Example.corpus ∧ book_name r = lit "Exodus"
                     ∧ book_chapter r = m)
       ∧ ∀ r : Row, r ∈ Example.corpus → book_name r = lit "Exodus"
                    → book_chapter r ≤ m.
Proof.
  refine (proj2 (proj2 (proj2 (proj2 (proj2
            (book_verse_counts_counts_every_verse Example.corpus)))
            {| bvc_book_name := lit "Exodus"; bvc_total_verses := 2;
               bvc_chapter_count := Some 20 |} _))).
  vm_compute. right. left.
Defined.

Lemma chapter_verse_counts_counts_every_verse_witness :
  1 ≤ cvc_verse_count
        {| cvc_book_name := lit "Genesis"; cvc_book_chapter := 1;
           cvc_verse_count := 2 |}.
Proof.
  refine (proj2 (proj1 (proj2 (proj2 (proj2
            (chapter_verse_counts_counts_every_verse Example.corpus))))
            {| cvc_book_name := lit "Genesis"; cvc_book_chapter := 1;
               cvc_verse_count := 2 |} _)).
  vm_compute. right. right. left.
Defined.

Lemma views_agree_on_totals_witness :
  SUM (cvc_verse_count
         <$> filter (λ c, cvc_book_name c = lit "Genesis")
               (chapter_verse_counts Example.corpus))
  = 2.
Proof.
  apply (views_agree_on_totals Example.corpus
           {| bvc_book_name := lit "Genesis"; bvc_total_verses := 2;
              bvc_chapter_count := Some 1 |}).
  vm_compute. left.
Defined.

Example book_verse_counts_corpus :
  (λ row, (bvc_book_name row, bvc_total_verses row, bvc_chapter_count row))
    <$> book_verse_counts Example.corpus
  = [(lit "Genesis", 2, Some 1); (lit "Exodus", 2, Some 20);
     (lit "John", 1, Some 3)].
Proof. vm_compute. reflexivity. Qed.

Lemma book_verse_counts_ordered_by_name_witness :
  StronglySorted (le text_cmp)
    (bvc_book_name
       <$> book_verse_counts
             (run [INSERT [Example.genesis_1_1; Example.genesis_1_2;
                           Example.verse_row "Exodus" 1 1
                             "Now these are the names of the children of Israel"]])).
Proof.
  refine (proj2 (book_verse_counts_ordered_by_name _) _).
  apply (bool_decide_unpack _). vm_compute. exact I.
Defined.

End Views.

(** ** Reading: the selection, the search box and what is shown *)

Module Reading.
Import Js Ord OrdFacts ListFacts Pg PgFacts Supabase.
Import useBibleApi useBibleApiFacts.
Import HomePage (View, mkView, selectedBook, selectedChapter, searchMode, api,
  Handled, view, requests, mount, handleBookChange, handleChapterChange,
  handleSearch, handleBooksExplorerSelection, Move, BookChange, ChapterChange,
  Search, BooksExplorerSelection, move, session).

#[local] Existing Instance Example.engine.

Lemma searchVerses_issued supabase st query :
  ¬ blank query →
  issued (searchVerses supabase st query) = [searchVerses_query query].
Proof.
  intros Hq. rewrite (searchVerses_not_blank _ _ _ Hq). unfold call.
  by destruct (request_sent "Failed to search verses" supabase
                 (searchVerses_query query) st []) as [st' ->].
Qed.

Lemma truthy_trim_iff query : truthy (trim query) = true ↔ ¬ blank query.
Proof.
  rewrite <- JsFacts.trim_falsy_iff. by destruct (truthy (trim query)).
Qed.

(** X12. [handleSearch] always sends the store exactly one query. For a
    query that is not blank it is the search for the query as typed, and
    the page enters search mode; for a blank one it is the fetch of the
    selected chapter, and the page leaves search mode. The selection is
    untouched either way, and [searchVerses] is never called with a blank
    query. *)
Theorem handleSearch_sends_one_query (supabase : Client) (v : View)
    (query : jsstring) :
  selectedBook (view (handleSearch supabase v query)) = selectedBook v
  ∧ selectedChapter (view (handleSearch supabase v query)) = selectedChapter v
  ∧ (¬ blank query →
       searchMode (view (handleSearch supabase v query)) = true
       ∧ requests (handleSearch supabase v query) = [searchVerses_query query])
  ∧ (blank query →
       searchMode (view (handleSearch supabase v query)) = false
       ∧ requests (handleSearch supabase v query)
         = [chapter_query (selectedBook v) (selectedChapter v)]).
Proof.
  unfold handleSearch.
  destruct (truthy (trim query)) eqn:E.
  - apply truthy_trim_iff in E. split; [done|]. split; [done|].
    split; [|done]. intros _. split; [done|]. by apply searchVerses_issued.
  - apply JsFacts.trim_falsy_iff in E. split; [done|]. split; [done|].
    split; [done|]. intros _. split; [done|]. apply fetchChapter_issued.
Qed.

Lemma handleSearch_sends_one_query_witness :
  searchMode (view (handleSearch (unreachable Example.fetch_failed)
                      (view (mount (unreachable Example.fetch_failed)))
                      (lit " love ")))
  = true
  ∧ requests (handleSearch (unreachable Example.fetch_failed)
                (view (mount (unreachable Example.fetch_failed)))
                (lit " love "))
    = [searchVerses_query (lit " love ")].
Proof.
  refine (proj1 (proj2 (proj2 (handleSearch_sends_one_query _ _ _))) _).
  intros Hb. apply (bool_decide_pack _) in Hb. vm_compute in Hb. exact Hb.
Defined.






Section engine.
Context `{Engine}.


(** With the store reachable, the hook shows the answer to the query the
    handler sent, or the fallback message of [fetchChapter] when the
    store refused the chapter number. *)
Definition shown (t : Table) (h : Handled) : Prop :=
  ∃ q, requests h = [q]
       ∧ match out_of_range (filters q) with
         | None =>
             api (view h) = {| verses := transform <$> select t q;
                               loading := false; error := None |}
         | Some _ =>
             loading (api (view h)) = false
             ∧ error (api (view h)) = Some (lit "Failed to fetch chapter")
         end.





End engine.


(** A chapter number that is no [INTEGER], picked in the header: the
    store refuses it, and the reader is left with the verses of before
    and the fallback message. *)
Example ChapterChange_out_of_range :
  view (session (connected Example.corpus) [ChapterChange 2147483648])
  = {| selectedBook := lit "Genesis"; selectedChapter := 2147483648;
       searchMode := false;
       api := {| verses := [Example.genesis_1_1_verse;
                            transform Example.genesis_1_2];
                 loading := false;
                 error := Some (lit "Failed to fetch chapter") |} |}.
Proof. vm_compute. reflexivity. Qed.

(** X14. Picking a book in the explorer without a chapter, or with
    chapter 0, does what choosing the book in the header does: chapter 1
    is selected and fetched. Any other chapter number, a negative one too,
    is selected and fetched as it is. Search mode is left in every case. *)
Theorem explorer_selection_defaults_to_chapter_one (supabase : Client)
    (v : View) (book : jsstring) (chapter : Z) :
  handleBooksExplorerSelection supabase v book None
  = handleBookChange supabase v book
  ∧ handleBooksExplorerSelection supabase v book (Some 0)
    = handleBookChange supabase v book
  ∧ selectedChapter (view (handleBookChange supabase v book)) = 1
  ∧ requests (handleBookChange supabase v book) = [chapter_query book 1]
  ∧ (chapter ≠ 0 →
       selectedBook
         (view (handleBooksExplorerSelection supabase v book (Some chapter)))
       = book
       ∧ selectedChapter
           (view (handleBooksExplorerSelection supabase v book (Some chapter)))
         = chapter
       ∧ searchMode
           (view (handleBooksExplorerSelection supabase v book (Some chapter)))
         = false
       ∧ requests (handleBooksExplorerSelection supabase v book (Some chapter))
         = [chapter_query book chapter]).
Proof.
  split; [done|]. split; [done|]. split; [done|].
  split; [apply fetchChapter_issued|].
  intros Hc. unfold handleBooksExplorerSelection.
  rewrite bool_decide_eq_true_2 by done. simpl.
  split; [done|]. split; [done|]. split; [done|]. apply fetchChapter_issued.
Qed.

Lemma explorer_selection_defaults_to_chapter_one_witness :
  selectedChapter
    (view (handleBooksExplorerSelection (unreachable Example.fetch_failed)
             (view (mount (unreachable Example.fetch_failed)))
             (lit "John") (Some (-3))))
  = -3.
Proof.
  refine (proj1 (proj2 (proj2 (proj2 (proj2 (proj2
            (explorer_selection_defaults_to_chapter_one
               (unreachable Example.fetch_failed)
               (view (mount (unreachable Example.fetch_failed)))
               (lit "John") (-3))))) _))).
  lia.
Defined.

(** X22. When the store fails on a change of book or chapter, the header
    moves on and the verses do not: the new book and chapter are selected,
    an error message is recorded, and the verses shown are still those of
    before the change. *)
Theorem selection_moves_on_when_fetch_fails (supabase : Client) (v : View)
    (book : jsstring) (chapter : Z) :
  (faulty (supabase (chapter_query book 1)) →
     selectedBook (view (handleBookChange supabase v book)) = book
     ∧ selectedChapter (view (handleBookChange supabase v book)) = 1
     ∧ ∃ msg, api (view (handleBookChange supabase v book))
              = {| verses := verses (api v); loading := false;
                   error := Some msg |})
  ∧ (faulty (supabase (chapter_query (selectedBook v) chapter)) →
       selectedChapter (view (handleChapterChange supabase v chapter)) = chapter
       ∧ ∃ msg, api (view (handleChapterChange supabase v chapter))
                = {| verses := verses (api v); loading := false;
                     error := Some msg |}).
Proof.
  split; intros Hf.
  - split; [done|]. split; [done|]. by apply fetchChapter_faulty.
  - split; [done|]. by apply fetchChapter_faulty.
Qed.

Lemma selection_moves_on_when_fetch_fails_witness :
  selectedBook (view (handleBookChange (unreachable Example.fetch_failed)
                        (view (mount (connected Example.corpus))) (lit "John")))
  = lit "John"
  ∧ selectedChapter
      (view (handleBookChange (unreachable Example.fetch_failed)
               (view (mount (connected Example.corpus))) (lit "John")))
    = 1
  ∧ ∃ msg,
      api (view (handleBookChange (unreachable Example.fetch_failed)
                   (view (mount (connected Example.corpus))) (lit "John")))
      = {| verses := verses (api (view (mount (connected Example.corpus))));
           loading := false; error := Some msg |}.
Proof.
  refine (proj1 (selection_moves_on_when_fetch_fails
                   (unreachable Example.fetch_failed)
                   (view (mount (connected Example.corpus)))
                   (lit "John") 1) _).
  simpl. by eexists.
Defined.

End Reading.

(** ** Favorites and topics *)

Module Collections.
Import Js Supabase HomePage HomePageFacts.
Import useBibleApi (Verse, mkVerse, book, chapter, verse, text).

(** *** Favorites *)

Lemma find_Some_elem_of {A} (p : A → bool) (l : list A) (x : A) :
  find p l = Some x → x ∈ l ∧ p x = true.
Proof.
  induction l as [|y l IH]; simpl; [done|].
  destruct (p y) eqn:E.
  - intros [= <-]. split; [left|done].
  - intros [Hx Hp]%IH. split; [by right|done].
Qed.

Lemma find_None_iff {A} (p : A → bool) (l : list A) :
  find p l = None ↔ ∀ x, x ∈ l → p x = false.
Proof.
  induction l as [|y l IH]; simpl.
  - split; [|done]. by intros _ x ?%elem_of_nil.
  - destruct (p y) eqn:E.
    + split; [done|]. intros Hall. rewrite (Hall y) in E; [done|left].
    + rewrite IH. split.
      * intros Hall x [->|Hx]%elem_of_cons; auto.
      * intros Hall x Hx. apply Hall. by right.
Qed.

Lemma hasKey_false key v : hasKey key v = false ↔ verseKey v ≠ key.
Proof. unfold hasKey. apply bool_decide_eq_false. Qed.

(** X18. [findVerseByKey] returns a verse of the key asked for, taken from
    the verses on display if one of them has that key and from the
    favorite verses otherwise; it returns nothing exactly when no verse of
    either list has the key. *)
Theorem findVerseByKey_finds_the_key (verses favoriteVerses : list Verse)
    (key : jsstring) :
  (∀ v, findVerseByKey verses favoriteVerses key = Some v →
        verseKey v = key
        ∧ (v ∈ verses
           ∨ v ∈ favoriteVerses ∧ ∀ w, w ∈ verses → verseKey w ≠ key))
  ∧ (findVerseByKey verses favoriteVerses key = None
     ↔ ∀ w, w ∈ verses ++ favoriteVerses → verseKey w ≠ key).
Proof.
  unfold findVerseByKey. split.
  - intros v. destruct (find (hasKey key) verses) as [foundVerse|] eqn:E1.
    + intros [= <-]. apply find_Some_elem_of in E1 as [Hin Hk].
      split; [by apply hasKey_true|by left].
    + destruct (find (hasKey key) favoriteVerses) as [fav|] eqn:E2; [|done].
      intros [= <-]. apply find_Some_elem_of in E2 as [Hin Hk].
      split; [by apply hasKey_true|]. right. split; [done|].
      intros w Hw. apply hasKey_false. by apply (find_None_iff _ verses).
  - destruct (find (hasKey key) verses) as [foundVerse|] eqn:E1.
    + split; [done|]. intros Hall.
      apply find_Some_elem_of in E1 as [Hin Hk%hasKey_true].
      destruct (Hall foundVerse); [|done]. apply elem_of_app. by left.
    + destruct (find (hasKey key) favoriteVerses) as [fav|] eqn:E2.
      * split; [done|]. intros Hall.
        apply find_Some_elem_of in E2 as [Hin Hk%hasKey_true].
        destruct (Hall fav); [|done]. apply elem_of_app. by right.
      * split; [|done]. intros _ w [Hw|Hw]%elem_of_app; apply hasKey_false.
        -- by apply (find_None_iff _ verses).
        -- by apply (find_None_iff _ favoriteVerses).
Qed.

Lemma findVerseByKey_finds_the_key_witness :
  verseKey Example.john_3_16_verse = verseKey Example.john_3_16_verse
  ∧ (Example.john_3_16_verse ∈ [Example.genesis_1_1_verse; Example.john_3_16_verse]
     ∨ Example.john_3_16_verse ∈ []
       ∧ ∀ w, w ∈ [Example.genesis_1_1_verse; Example.john_3_16_verse]
              → verseKey w ≠ verseKey Example.john_3_16_verse).
Proof.
  apply (proj1 (findVerseByKey_finds_the_key
                  [Example.genesis_1_1_verse; Example.john_3_16_verse] []
                  (verseKey Example.john_3_16_verse))).
  vm_compute. reflexivity.
Defined.

(** The array lists the favorites: the keys of its verses, in order, are
    the keys of the set, in order. *)
Definition listed (st : Page) : Prop :=
  verseKey <$> favoriteVerses st = favorites st ∧ NoDup (favorites st).

Lemma removeFirst_notin key vs :
  key ∉ verseKey <$> vs → removeFirst key vs = vs.
Proof.
  induction vs as [|v vs IH]; simpl; [done|].
  rewrite not_elem_of_cons. intros [Hne Hnotin].
  rewrite (proj2 (hasKey_false key v)) by done. by rewrite IH.
Qed.

Lemma removeFirst_filter key vs :
  NoDup (verseKey <$> vs) →
  removeFirst key vs = filter (λ v, verseKey v ≠ key) vs.
Proof.
  induction vs as [|v vs IH]; simpl; [done|].
  rewrite NoDup_cons. intros [Hnotin Hnd]. rewrite filter_cons.
  destruct (hasKey key v) eqn:E.
  - apply hasKey_true in E. subst key. rewrite decide_False by auto.
    rewrite <- IH by done. by rewrite removeFirst_notin.
  - apply hasKey_false in E. rewrite decide_True by done. by rewrite IH.
Qed.

Lemma handleToggleFavorite_removes st verse :
  listed st → has (favorites st) (verseKey verse) = true →
  handleToggleFavorite st verse
  = {| favorites := delete (favorites st) (verseKey verse);
       favoriteVerses :=
         filter (λ v, verseKey v ≠ verseKey verse) (favoriteVerses st);
       topics := topics st |}.
Proof.
  intros [Hkeys Hnd] Hhas. unfold handleToggleFavorite. rewrite Hhas.
  rewrite splice1_findIndex, removeFirst_filter; [done|]. by rewrite Hkeys.
Qed.

Lemma handleToggleFavorite_adds st verse :
  has (favorites st) (verseKey verse) = false →
  handleToggleFavorite st verse
  = {| favorites := favorites st ++ [verseKey verse];
       favoriteVerses := favoriteVerses st ++ [verse];
       topics := topics st |}.
Proof.
  intros Hhas. unfold handleToggleFavorite, add. by rewrite Hhas.
Qed.

Lemma handleToggleFavorite_listed st verse :
  listed st → listed (handleToggleFavorite st verse).
Proof.
  intros Hst. pose proof Hst as [Hkeys Hnd].
  split; [|by apply NoDup_handleToggleFavorite].
  destruct (has (favorites st) (verseKey verse)) eqn:Hhas.
  - rewrite handleToggleFavorite_removes by done. simpl.
    unfold delete. rewrite <- Hkeys. by rewrite ListFacts.filter_fmap.
  - rewrite handleToggleFavorite_adds by done. simpl.
    by rewrite fmap_app, Hkeys.
Qed.

Lemma rebuilt_keys (f : jsstring → option Verse) (s : list jsstring) :
  (∀ key, key ∈ s → ∃ v, f key = Some v ∧ verseKey v = key) →
  verseKey <$> omap f s = s.
Proof.
  induction s as [|key s IH]; intros Hf; [done|].
  destruct (Hf key) as (v & Ev & Hv); [left|].
  assert (omap f (key :: s) = v :: omap f s) as -> by (simpl; by rewrite Ev).
  rewrite fmap_cons, Hv, IH; [done|]. intros k Hk. apply Hf. by right.
Qed.

Lemma favoritesEffect_listed shown st :
  listed st → listed (favoritesEffect shown st).
Proof.
  intros [Hkeys Hnd]. split; [|done]. unfold favoritesEffect. simpl.
  apply rebuilt_keys. intros key Hkey.
  destruct (findVerseByKey shown (favoriteVerses st) key) as [v|] eqn:E.
  - exists v. split; [done|]. by eapply findVerseByKey_Some.
  - apply findVerseByKey_None in E. exfalso.
    rewrite <- Hkeys in Hkey. apply list_elem_of_fmap in Hkey as (v & -> & Hv).
    unfold entries in E. apply length_zero_iff_nil in E.
    assert (v ∈ filter (λ w, verseKey w = verseKey v) (favoriteVerses st)) as Hin
      by by apply list_elem_of_filter.
    rewrite E in Hin. by apply elem_of_nil in Hin.
Qed.

Lemma clicks_listed cs : listed (clicks cs).
Proof.
  unfold clicks. assert (listed mounted) as Hinit by (split; [done|constructor]).
  revert Hinit. generalize mounted.
  induction cs as [|[shown v] cs IH]; intros st Hst; simpl; [done|].
  apply IH. unfold click, toggle. cbn [fst snd].
  by apply favoritesEffect_listed, handleToggleFavorite_listed.
Qed.

(** X15. In every state the favorites reach from the first render, after
    the handler as after the effect, the array of favorite verses lists
    the favorites in the order of the set: the keys of its verses are, one
    for one and in order, the keys of the set, oldest favorite first. *)
Theorem favoriteVerses_in_the_order_of_the_set
    (cs : list (list Verse * Verse)) (v : Verse) :
  verseKey <$> favoriteVerses (clicks cs) = favorites (clicks cs)
  ∧ verseKey <$> favoriteVerses (handleToggleFavorite (clicks cs) v)
    = favorites (handleToggleFavorite (clicks cs) v)
  ∧ NoDup (favorites (clicks cs)).
Proof.
  pose proof (clicks_listed cs) as Hst.
  destruct (handleToggleFavorite_listed _ v Hst) as [Hkeys' _].
  destruct Hst as [Hkeys Hnd]. done.
Qed.

(** X16. [handleRemoveFavorite] is a toggle. On a favorite it takes the
    key out of the set and the verse out of the array, leaving the other
    favorites in place and in order; on a verse that is no favorite it
    adds the verse, at the end of both. *)
Theorem handleRemoveFavorite_toggles (cs : list (list Verse * Verse))
    (v : Verse) :
  (has (favorites (clicks cs)) (verseKey v) = true →
     handleRemoveFavorite (clicks cs) v
     = {| favorites := filter (λ key, key ≠ verseKey v) (favorites (clicks cs));
          favoriteVerses :=
            filter (λ w, verseKey w ≠ verseKey v) (favoriteVerses (clicks cs));
          topics := topics (clicks cs) |})
  ∧ (has (favorites (clicks cs)) (verseKey v) = false →
       handleRemoveFavorite (clicks cs) v
       = {| favorites := favorites (clicks cs) ++ [verseKey v];
            favoriteVerses := favoriteVerses (clicks cs) ++ [v];
            topics := topics (clicks cs) |}).
Proof.
  split.
  - intros Hhas. unfold handleRemoveFavorite.
    by rewrite handleToggleFavorite_removes; [|apply clicks_listed|].
  - apply handleToggleFavorite_adds.
Qed.

Lemma handleRemoveFavorite_toggles_witness :
  handleRemoveFavorite (clicks []) Example.john_3_16_verse
  = {| favorites := [verseKey Example.john_3_16_verse];
       favoriteVerses := [Example.john_3_16_verse];
       topics := [] |}.
Proof.
  apply (proj2 (handleRemoveFavorite_toggles [] Example.john_3_16_verse)).
  vm_compute. reflexivity.
Defined.

(** X17. A toggle changes the membership of exactly the verses that have
    the book, the chapter and the verse number of the toggled one: the
    key tells verses apart as those three do, underscores in book names
    notwithstanding. *)
Theorem toggle_flips_the_same_verse_only (st : Page) (v w : Verse) :
  (verseKey v = verseKey w
   ↔ book v = book w ∧ chapter v = chapter w ∧ verse v = verse w)
  ∧ has (favorites (handleToggleFavorite st v)) (verseKey w)
    = if sameVerse v w then negb (has (favorites st) (verseKey w))
      else has (favorites st) (verseKey w).
Proof.
  split.
  - rewrite verseKey_inj. unfold compositeKey. split; [by intros [= -> -> ->]|].
    by intros (-> & -> & ->).
  - rewrite handleToggleFavorite_has, <- hasKey_sameVerse. unfold hasKey.
    apply (f_equal (λ b : bool, if b then _ else _)).
    apply bool_decide_ext. split; by intros ->.
Qed.

(** *** Topics *)

Lemma existsb_sameVerse_false verse vs :
  existsb (sameVerse verse) vs = false
  ↔ ∀ v, v ∈ vs → sameVerse verse v = false.
Proof.
  induction vs as [|w vs IH]; simpl.
  - split; [|done]. by intros _ v ?%elem_of_nil.
  - rewrite orb_false_iff, IH. split.
    + intros [Hw Hall] v [->|Hv]%elem_of_cons; auto.
    + intros Hall. split; [apply Hall; left|]. intros v Hv. apply Hall. by right.
Qed.

Lemma sameVerse_refl verse : sameVerse verse verse = true.
Proof. by apply sameVerse_true. Qed.

Lemma filter_other_verses verse vs :
  existsb (sameVerse verse) vs = false →
  filter (λ v, negb (sameVerse verse v) = true) (vs ++ [verse]) = vs.
Proof.
  intros Habs. rewrite filter_app, filter_cons, filter_nil.
  rewrite decide_False by (rewrite sameVerse_refl; done).
  rewrite app_nil_r. apply ListFacts.filter_all, Forall_forall.
  intros v Hv. by rewrite (proj1 (existsb_sameVerse_false verse vs) Habs v Hv).
Qed.

Lemma removeVerseFrom_addVerseTo topicId verse topic :
  existsb (sameVerse verse) (verses topic) = false →
  removeVerseFrom topicId verse (addVerseTo topicId verse topic) = topic.
Proof.
  intros Habs. unfold addVerseTo. case_bool_decide as Hid.
  - rewrite Habs. simpl. unfold removeVerseFrom. simpl.
    rewrite bool_decide_eq_true_2 by done.
    rewrite filter_other_verses by done. by destruct topic.
  - by apply removeVerseFrom_absent.
Qed.

Lemma removeVerseFrom_gone topicId verse topic :
  id topic = topicId →
  existsb (sameVerse verse) (verses (removeVerseFrom topicId verse topic))
  = false.
Proof.
  intros Hid. unfold removeVerseFrom. rewrite bool_decide_eq_true_2 by done.
  simpl. apply existsb_sameVerse_false.
  intros v [Hv _]%list_elem_of_filter. by destruct (sameVerse verse v).
Qed.

(** X19. Adding a verse to a topic and removing it again gives the topic
    back, provided the topic held no verse of that book, chapter and verse
    number before; so it is for the whole list of topics. Removing takes
    out every verse of that key, so that afterwards the topic holds none. *)
Theorem add_then_remove_restores_topic (st : Page) (topicId : jsstring)
    (verse : Verse) (topic : Topic) :
  (existsb (sameVerse verse) (verses topic) = false →
     removeVerseFrom topicId verse (addVerseTo topicId verse topic) = topic)
  ∧ (Forall (λ topic, id topic = topicId →
                      existsb (sameVerse verse) (verses topic) = false)
       (topics st) →
     handleRemoveVerseFromTopic (handleAddVerseToTopic st topicId verse)
       topicId verse = st)
  ∧ (id topic = topicId →
       existsb (sameVerse verse)
         (verses (removeVerseFrom topicId verse topic)) = false).
Proof.
  split; [apply removeVerseFrom_addVerseTo|].
  split; [|apply removeVerseFrom_gone].
  intros Hall. unfold handleRemoveVerseFromTopic, handleAddVerseToTopic.
  unfold setTopics. simpl. rewrite <- list_fmap_compose.
  destruct st as [favs favVerses ts]. simpl in *. f_equal.
  rewrite <- (list_fmap_id ts) at 2. apply list_fmap_ext.
  intros i t Ht%list_elem_of_lookup_2. unfold compose.
  rewrite Forall_forall in Hall.
  destruct (decide (id t = topicId)) as [Hid|Hid].
  - apply removeVerseFrom_addVerseTo. by apply Hall.
  - assert (addVerseTo topicId verse t = t) as ->.
    { unfold addVerseTo. by rewrite bool_decide_eq_false_2. }
    unfold removeVerseFrom. by rewrite bool_decide_eq_false_2.
Qed.

Lemma add_then_remove_restores_topic_witness :
  removeVerseFrom [] Example.john_3_16_verse
    (addVerseTo [] Example.john_3_16_verse
       (mkTopic [] (lit "Love") [] [Example.genesis_1_1_verse] 0))
  = mkTopic [] (lit "Love") [] [Example.genesis_1_1_verse] 0.
Proof.
  apply (proj1 (add_then_remove_restores_topic mounted []
                  Example.john_3_16_verse
                  (mkTopic [] (lit "Love") [] [Example.genesis_1_1_verse] 0))).
  vm_compute. reflexivity.
Defined.

(** The creation times of a list of events. *)
Definition creationTimes (es : list TopicEvent) : list Z :=
  omap (λ e, match e with CreateTopic now _ => Some now | _ => None end) es.

Lemma id_addVerseTo topicId verse topic :
  id (addVerseTo topicId verse topic) = id topic.
Proof.
  unfold addVerseTo. case_bool_decide; [|done].
  by destruct (existsb (sameVerse verse) (verses topic)).
Qed.

Lemma id_removeVerseFrom topicId verse topic :
  id (removeVerseFrom topicId verse topic) = id topic.
Proof. unfold removeVerseFrom. by case_bool_decide. Qed.

Lemma ids_handle st e :
  id <$> topics (handle st e)
  `sublist_of` (id <$> topics st)
               ++ (Number_toString <$> creationTimes [e]).
Proof.
  destruct e as [now d|topicId|topicId v|topicId v]; simpl.
  - by rewrite fmap_app.
  - rewrite app_nil_r. apply fmap_sublist, sublist_filter.
  - rewrite app_nil_r, <- list_fmap_compose.
    erewrite list_fmap_ext; [done|]. intros i t _. apply id_addVerseTo.
  - rewrite app_nil_r, <- list_fmap_compose.
    erewrite list_fmap_ext; [done|]. intros i t _. apply id_removeVerseFrom.
Qed.

Lemma creationTimes_app es es' :
  creationTimes (es ++ es') = creationTimes es ++ creationTimes es'.
Proof. unfold creationTimes. apply omap_app. Qed.

Lemma ids_foldl_handle es :
  id <$> topics (foldl handle mounted es)
  `sublist_of` Number_toString <$> creationTimes es.
Proof.
  induction es as [|e es IH] using rev_ind; [done|].
  rewrite foldl_app, creationTimes_app, fmap_app. simpl.
  etransitivity; [apply ids_handle|]. by apply sublist_app.
Qed.

(** X20. Topic ids are creation times in milliseconds: as long as no two
    topics are created in the same millisecond, no two topics ever share
    an id, whatever is added, removed or deleted in between; two topics
    created in the same millisecond do share theirs. *)
Theorem topic_ids_distinct_when_times_are (es : list TopicEvent) (now : Z)
    (st : Page) (d d' : TopicData) :
  (NoDup (creationTimes es) → NoDup (id <$> topics (foldl handle mounted es)))
  ∧ ∃ topic topic',
      topics (handleCreateTopic now (handleCreateTopic now st d) d')
      = topics st ++ [topic; topic']
      ∧ id topic = id topic'.
Proof.
  split.
  - intros Hnd. eapply sublist_NoDup; [|apply ids_foldl_handle].
    apply NoDup_fmap_2; [|done]. intros z1 z2. apply JsFacts.Number_toString_inj.
  - eexists _, _. unfold handleCreateTopic. simpl.
    rewrite <- app_assoc. split; [reflexivity|done].
Qed.

Lemma topic_ids_distinct_when_times_are_witness :
  NoDup (id <$> topics (foldl handle mounted
     [CreateTopic 1700000000000
        {| data_title := lit "Love"; data_description := []; data_verses := [] |};
      CreateTopic 1700000000001
        {| data_title := lit "Hope"; data_description := []; data_verses := [] |};
      DeleteTopic (lit "1700000000000")])).
Proof.
  refine (proj1 (topic_ids_distinct_when_times_are _ 0 mounted
                   {| data_title := []; data_description := [];
                      data_verses := [] |}
                   {| data_title := []; data_description := [];
                      data_verses := [] |}) _).
  apply (bool_decide_unpack _). vm_compute. exact I.
Defined.

(** X21. Deleting a topic removes every topic of that id and keeps the
    others in their order; so creating a topic and deleting it right away
    gives the topics back when none of them has the id of the new one, and
    otherwise removes those older topics with it. *)
Theorem create_then_delete_topic (st : Page) (now : Z) (d : TopicData)
    (topicId : jsstring) :
  topics (handleDeleteTopic st topicId)
  = filter (λ topic, id topic ≠ topicId) (topics st)
  ∧ handleDeleteTopic (handleCreateTopic now st d) (Number_toString now)
    = handleDeleteTopic st (Number_toString now)
  ∧ (Number_toString now ∉ id <$> topics st →
       handleDeleteTopic (handleCreateTopic now st d) (Number_toString now)
       = st).
Proof.
  assert (handleDeleteTopic (handleCreateTopic now st d) (Number_toString now)
          = handleDeleteTopic st (Number_toString now)) as Hcd.
  { unfold handleDeleteTopic, handleCreateTopic, setTopics. simpl. f_equal.
    rewrite filter_app, filter_cons, filter_nil. simpl.
    rewrite decide_False by auto. apply app_nil_r. }
  split; [done|]. split; [done|]. intros Hfresh. rewrite Hcd.
  unfold handleDeleteTopic, setTopics. destruct st as [favs favVerses ts].
  simpl in *. f_equal. apply ListFacts.filter_all, Forall_forall.
  intros topic Ht Hid. apply Hfresh. rewrite <- Hid.
  by apply list_elem_of_fmap_2.
Qed.

Lemma create_then_delete_topic_witness :
  handleDeleteTopic
    (handleCreateTopic 1700000000000 mounted
       {| data_title := lit "Love"; data_description := []; data_verses := [] |})
    (Number_toString 1700000000000)
  = mounted.
Proof.
  refine (proj2 (proj2 (create_then_delete_topic mounted 1700000000000 _ [])) _).
  simpl. apply not_elem_of_nil.
Defined.

End Collections.
